(** * DesktopCommanderMCP: the command guard and the path sandbox

    A shallow embedding of [src/command-manager.ts] (class [CommandManager])
    and of the path validation of [src/tools/filesystem.ts]
    ([normalizePath], [expandHome], [validateParentDirectories],
    [validatePath]), with the properties the specification states about
    them.

    Conventions of the embedding.
    - A JavaScript string is a list of code units.  Code units are
      restricted to U+0000..U+00FF and represented by [ascii]; on that range
      [toLowerCase], [trim] and the regular-expression classes [\s], [\S]
      and [\w] are modelled exactly.
    - A loop over an index [i] that also jumps forward ([i += k]) is a
      structural recursion over the remaining characters with a counter of
      positions still to be skipped.
    - A [Set<string>] is the list of its elements in insertion order,
      without duplicates.
    - Asynchronous code is modelled by the time at which a promise settles
      (see [promise]). *)

From Stdlib Require Import List Ascii Bool Arith NArith Lia.
From Stdlib Require Import Sorting.Sorted Sorting.Permutation.
Import ListNotations.

(* ================================================================= *)
(** ** Strings *)

Definition str := list ascii.

Declare Scope str_scope.
Delimit Scope str_scope with str.

Inductive literal : Set :=
| LNil
| LCons (c : ascii) (l : literal).

Fixpoint literal_of_bytes (l : list Byte.byte) : literal :=
  match l with
  | [] => LNil
  | b :: l => LCons (ascii_of_byte b) (literal_of_bytes l)
  end.

Fixpoint bytes_of_literal (l : literal) : list Byte.byte :=
  match l with
  | LNil => []
  | LCons c l => byte_of_ascii c :: bytes_of_literal l
  end.

#[warnings="-via-type-mismatch"]
String Notation list literal_of_bytes bytes_of_literal
  (via literal mapping [[nil] => LNil, [cons] => LCons]) : str_scope.
Bind Scope str_scope with str.
Open Scope str_scope.

Fixpoint str_eqb (a b : str) : bool :=
  match a, b with
  | [], [] => true
  | x :: a', y :: b' => Ascii.eqb x y && str_eqb a' b'
  | _, _ => false
  end.

(** [s.startsWith(p)] *)
Fixpoint startsWith (p s : str) : bool :=
  match p, s with
  | [], _ => true
  | x :: p', y :: s' => Ascii.eqb x y && startsWith p' s'
  | _ :: _, [] => false
  end.

(** The code units that [String.prototype.trim] removes and that [\s]
    matches (WhiteSpace and LineTerminator), below U+0100: TAB, LF, VT, FF,
    CR, SPACE and NO-BREAK SPACE. *)
Definition isSpace (c : ascii) : bool :=
  let n := N_of_ascii c in
  ((9 <=? n) && (n <=? 13) || (n =? 32) || (n =? 160))%N.

(** [\w]: [A-Za-z0-9_]. *)
Definition isWord (c : ascii) : bool :=
  let n := N_of_ascii c in
  ((65 <=? n) && (n <=? 90) || (97 <=? n) && (n <=? 122)
   || (48 <=? n) && (n <=? 57) || (n =? 95))%N.

(** [toLowerCase] on one code unit below U+0100: A-Z and the Latin-1
    capitals U+00C0..U+00DE (but not the multiplication sign U+00D7) move
    up by 32. *)
Definition lowerChar (c : ascii) : ascii :=
  let n := N_of_ascii c in
  if ((65 <=? n) && (n <=? 90)
      || (192 <=? n) && (n <=? 222) && negb (n =? 215))%N
  then ascii_of_N (n + 32) else c.

Definition toLowerCase (s : str) : str := map lowerChar s.

Fixpoint trimStart (s : str) : str :=
  match s with
  | [] => []
  | c :: t => if isSpace c then trimStart t else s
  end.

Definition trimEnd (s : str) : str := rev (trimStart (rev s)).

Definition trim (s : str) : str := trimEnd (trimStart s).

(** [s.split(sep)[0]] for a one-character separator: the characters before
    the first occurrence of [sep], or all of [s]. *)
Fixpoint splitHead (sep : ascii) (s : str) : str :=
  match s with
  | [] => []
  | c :: t => if Ascii.eqb c sep then [] else c :: splitHead sep t
  end.

(** The longest prefix of characters satisfying [p], and what follows. *)
Fixpoint span (p : ascii -> bool) (s : str) : str * str :=
  match s with
  | [] => ([], [])
  | c :: t =>
      if p c then let '(a, b) := span p t in (c :: a, b) else ([], s)
  end.

(* ================================================================= *)
(** ** [Set<string>] *)

Module StringSet.

Definition t := list str.

Definition has (x : str) (s : t) : bool := existsb (str_eqb x) s.

Definition add (x : str) (s : t) : t := if has x s then s else s ++ [x].

Definition delete (x : str) (s : t) : t :=
  filter (fun y => negb (str_eqb x y)) s.

(** [new Set(iterable)] *)
Definition of_list (l : list str) : t :=
  fold_left (fun s x => add x s) l [].

End StringSet.

(** Default [Array.prototype.sort] order on strings: code units compared
    lexicographically. *)
Fixpoint str_leb (a b : str) : bool :=
  match a, b with
  | [], _ => true
  | _ :: _, [] => false
  | x :: a', y :: b' =>
      match (N_of_ascii x ?= N_of_ascii y)%N with
      | Lt => true
      | Gt => false
      | Eq => str_leb a' b'
      end
  end.

(** [Array.prototype.sort] on an array of strings.  The order is total and
    antisymmetric, so every sorting algorithm yields the same array; the
    model inserts one element at a time. *)
Fixpoint sort_insert (x : str) (l : list str) : list str :=
  match l with
  | [] => [x]
  | y :: l' => if str_leb x y then x :: l else y :: sort_insert x l'
  end.

Definition sort (l : list str) : list str := fold_right sort_insert [] l.

Definition str_le (a b : str) : Prop := str_leb a b = true.

Definition TAB : ascii := "009"%char.

Definition DQUOTE : ascii := "034"%char.

(* ================================================================= *)
(** ** [command-manager.ts] *)

Definition DEFAULT_BLOCKED_COMMANDS : list str :=
  [ "format"; "mount"; "umount"; "mkfs"; "fdisk"; "dd"; "sudo"; "su";
    "passwd"; "adduser"; "useradd"; "usermod"; "groupadd" ].

Record CommandManager : Type := mkCommandManager {
  blockedCommands : StringSet.t
}.

Definition commandManager : CommandManager :=
  mkCommandManager (StringSet.of_list DEFAULT_BLOCKED_COMMANDS).

(** [command.split(' ')[0].toLowerCase().trim()] *)
Definition getBaseCommand (command : str) : str :=
  trim (toLowerCase (splitHead " "%char command)).

Definition validateCommand (m : CommandManager) (command : str) : bool :=
  let baseCommand := getBaseCommand command in
  negb (StringSet.has baseCommand (blockedCommands m)).

(** The methods that mutate the manager return their result together with
    the manager afterwards; [saveBlockedCommands] only writes a log line. *)
Definition blockCommand (m : CommandManager) (command : str)
  : bool * CommandManager :=
  let command := trim (toLowerCase command) in
  if StringSet.has command (blockedCommands m) then (false, m)
  else (true, mkCommandManager (StringSet.add command (blockedCommands m))).

Definition unblockCommand (m : CommandManager) (command : str)
  : bool * CommandManager :=
  let command := trim (toLowerCase command) in
  if negb (StringSet.has command (blockedCommands m)) then (false, m)
  else (true, mkCommandManager (StringSet.delete command (blockedCommands m))).

Definition listBlockedCommands (m : CommandManager) : list str :=
  sort (blockedCommands m).

(** *** [extractBaseCommand] *)

(** One attempt of the regular expression [\w+=\S+\s*] at the start of
    [s]: the length of the match, if there is one.  Each quantifier is
    greedy.  [\w+] has to take the whole run of word characters, because a
    shorter run is followed by a word character and not by [=]; [\S+] takes
    the whole run of non-space characters and [\s*] the spaces after it, and
    nothing follows that could fail and make them give characters back. *)
Definition matchEnvVar (s : str) : option nat :=
  let '(key, r1) := span isWord s in
  match key, r1 with
  | _ :: _, c :: r2 =>
      if Ascii.eqb c "="%char then
        let '(value, r3) := span (fun c => negb (isSpace c)) r2 in
        match value with
        | [] => None
        | _ :: _ =>
            let '(spaces, _) := span isSpace r3 in
            Some (length key + 1 + length value + length spaces)
        end
      else None
  | _, _ => None
  end.

(** [s.replace(/\w+=\S+\s*/g, '')]: the matches are looked for from left
    to right, each search starting where the previous match ended; [skip]
    counts the characters of the current match still to be dropped. *)
Fixpoint removeEnvVars (s : str) (skip : nat) : str :=
  match s with
  | [] => []
  | c :: t =>
      match skip with
      | S k => removeEnvVars t k
      | O =>
          match matchEnvVar s with
          | Some n => removeEnvVars t (n - 1)
          | None => c :: removeEnvVars t 0
          end
      end
  end.

(** [s.split(/\s+/)[0]]: the characters before the first white space. *)
Definition firstToken (s : str) : str := fst (span (fun c => negb (isSpace c)) s).

Definition extractBaseCommand (commandStr : str) : option str :=
  let withoutEnvVars := trim (removeEnvVars commandStr 0) in
  match withoutEnvVars with
  | [] => None
  | _ :: _ =>
      let firstToken := firstToken withoutEnvVars in
      match firstToken with
      | c :: _ =>
          if Ascii.eqb c "("%char || Ascii.eqb c "$"%char then None
          else Some (toLowerCase firstToken)
      | [] => Some (toLowerCase firstToken)
      end
  end.

(** *** [extractCommands] *)

Definition separators : list str := [";"; "&&"; "||"; "|"; "&"].

Record ScanState : Type := mkScan {
  inQuote : bool;
  quoteChar : str;
  currentCmd : str;
  escaped : bool;
  commands : list str
}.

Definition initialScan : ScanState :=
  mkScan false [] [] false [].

Definition appendChar (c : ascii) (st : ScanState) : ScanState :=
  mkScan (inQuote st) (quoteChar st) (currentCmd st ++ [c]) (escaped st)
         (commands st).

(** [if (currentCmd.trim()) { const baseCommand = ...; if (baseCommand)
    commands.push(baseCommand); }] *)
Definition pushBaseCommand (st : ScanState) : ScanState :=
  match trim (currentCmd st) with
  | [] => st
  | _ :: _ =>
      match extractBaseCommand (trim (currentCmd st)) with
      | Some ((_ :: _) as baseCommand) =>
          mkScan (inQuote st) (quoteChar st) (currentCmd st) (escaped st)
                 (commands st ++ [baseCommand])
      | _ => st
      end
  end.

(** The [while] loop that looks for the closing parenthesis: the number of
    characters it steps over, starting right after the opening one. *)
Fixpoint parenScan (openParens : nat) (s : str) : nat :=
  match s with
  | [] => 0
  | c :: t =>
      match openParens with
      | O => 0
      | S _ =>
          let o1 := if Ascii.eqb c "("%char then S openParens else openParens in
          let o2 := if Ascii.eqb c ")"%char then o1 - 1 else o1 in
          S (parenScan o2 t)
      end
  end.

(** [commandString.substring(i + 1, j - 1)] where [j = i + 1 + k] and [tl]
    holds the characters after position [i].  [substring] swaps its
    arguments when the first is the larger one, which happens when the
    parenthesis is the last character ([k = 0]): the substring is then the
    parenthesis itself. *)
Definition subshellContent (c : ascii) (tl : str) (k : nat) : str :=
  match k with
  | O => [c]
  | S k' => firstn k' tl
  end.

(** One iteration of the [for] loop at character [c], followed by [tl].
    The result is the state after the iteration and the number of further
    positions the iteration moved [i] by; [None] when the recursive call
    [self] raised. *)
Definition scanStep (self : str -> option (list str))
    (c : ascii) (tl : str) (st : ScanState) : option (ScanState * nat) :=
  if Ascii.eqb c "\"%char && negb (escaped st) then
    Some (mkScan (inQuote st) (quoteChar st) (currentCmd st ++ [c]) true
                 (commands st), 0)
  else if escaped st then
    Some (mkScan (inQuote st) (quoteChar st) (currentCmd st ++ [c]) false
                 (commands st), 0)
  else if (Ascii.eqb c "034"%char || Ascii.eqb c "'"%char) && negb (inQuote st) then
    Some (mkScan true [c] (currentCmd st ++ [c]) (escaped st) (commands st), 0)
  else if str_eqb [c] (quoteChar st) && inQuote st then
    Some (mkScan false [] (currentCmd st ++ [c]) (escaped st) (commands st), 0)
  else if inQuote st then
    Some (appendChar c st, 0)
  else
    let separatorCheck :=
      match find (fun separator => startsWith separator (c :: tl)) separators with
      | Some separator =>
          let st' := pushBaseCommand st in
          Some (mkScan (inQuote st') (quoteChar st') [] (escaped st')
                       (commands st'), length separator - 1)
      | None => Some (appendChar c st, 0)
      end in
    if Ascii.eqb c "("%char then
      let k := parenScan 1 tl in
      if k <=? length tl then
        match self (subshellContent c tl k) with
        | Some subCommands =>
            Some (mkScan (inQuote st) (quoteChar st) (currentCmd st)
                         (escaped st) (commands st ++ subCommands), k)
        | None => None
        end
      else separatorCheck
    else separatorCheck.

(** The [for] loop over the characters [s], the first [skip] of which have
    already been consumed by the previous iteration. *)
Fixpoint scan (self : str -> option (list str))
    (s : str) (skip : nat) (st : ScanState) : option ScanState :=
  match s with
  | [] => Some st
  | c :: tl =>
      match skip with
      | S k => scan self tl k st
      | O =>
          match scanStep self c tl st with
          | Some (st', skip') => scan self tl skip' st'
          | None => None
          end
      end
  end.

(** [extractCommands] calls itself on the content of a subshell.  [stack]
    is the number of nested calls the call stack still has room for: a call that
    does not fit raises ([None]), and the [catch] of the calling
    [extractCommands] turns that into the coarse base command of its own
    (trimmed) argument. *)
Fixpoint extractCommands (stack : nat) (commandString : str)
  : option (list str) :=
  match stack with
  | O => None
  | S stack' =>
      let commandString := trim commandString in
      match scan (extractCommands stack') commandString 0 initialScan with
      | Some st =>
          Some (StringSet.of_list (commands (pushBaseCommand st)))
      | None => Some [getBaseCommand commandString]
      end
  end.

(* ================================================================= *)
(** ** Node's [path] module (POSIX flavour) and [os], [process]

    [filesystem.ts] uses [path.normalize], [path.resolve], [path.join],
    [path.isAbsolute], [path.dirname] and [path.sep].  They are modelled as
    Node documents and implements them for POSIX paths, segment by
    segment. *)

Module path.

Definition sep : str := "/".

Definition isSlash (c : ascii) : bool := Ascii.eqb c "/"%char.

(** [s.split('/')] *)
Fixpoint segments (s : str) : list str :=
  match s with
  | [] => [[]]
  | c :: t =>
      if isSlash c then [] :: segments t
      else match segments t with
           | seg :: segs => (c :: seg) :: segs
           | [] => [[c]]
           end
  end.

(** Node's internal [normalizeString]: empty and [.] segments vanish, a
    [..] segment removes the segment before it, or stays when there is
    none to remove and the path is relative.  [stack] holds the segments
    kept so far, the last one first. *)
Fixpoint normalizeSegments (allowAboveRoot : bool) (segs stack : list str)
  : list str :=
  match segs with
  | [] => rev stack
  | seg :: segs' =>
      if str_eqb seg [] || str_eqb seg "." then
        normalizeSegments allowAboveRoot segs' stack
      else if str_eqb seg ".." then
        match stack with
        | top :: below =>
            if str_eqb top ".." then
              normalizeSegments allowAboveRoot segs'
                (if allowAboveRoot then seg :: stack else stack)
            else normalizeSegments allowAboveRoot segs' below
        | [] =>
            normalizeSegments allowAboveRoot segs'
              (if allowAboveRoot then [seg] else [])
        end
      else normalizeSegments allowAboveRoot segs' (seg :: stack)
  end.

(** [segs.join('/')] *)
Fixpoint joinSegments (segs : list str) : str :=
  match segs with
  | [] => []
  | [seg] => seg
  | seg :: segs' => seg ++ "/" ++ joinSegments segs'
  end.

Definition normalizeString (p : str) (allowAboveRoot : bool) : str :=
  joinSegments (normalizeSegments allowAboveRoot (segments p) []).

Definition isAbsolute (p : str) : bool :=
  match p with
  | c :: _ => isSlash c
  | [] => false
  end.

Definition endsWithSlash (p : str) : bool :=
  match rev p with
  | c :: _ => isSlash c
  | [] => false
  end.

Definition normalize (p : str) : str :=
  match p with
  | [] => "."
  | _ :: _ =>
      let isAbs := isAbsolute p in
      let trailingSeparator := endsWithSlash p in
      match normalizeString p (negb isAbs) with
      | [] => if isAbs then "/" else if trailingSeparator then "./" else "."
      | (_ :: _) as q =>
          let q := if trailingSeparator then q ++ "/" else q in
          if isAbs then "/" ++ q else q
      end
  end.

(** [path.join(...args)] *)
Definition join (args : list str) : str :=
  match filter (fun a => negb (str_eqb a [])) args with
  | [] => "."
  | parts => normalize (joinSegments parts)
  end.

(** The loop of [path.resolve]: the arguments are taken from the last to
    the first, then the working directory, until the path is absolute. *)
Fixpoint resolveLoop (argsRev : list str) (cwd : str) (resolvedPath : str)
  : str * bool :=
  match argsRev with
  | [] =>
      match cwd with
      | [] => (resolvedPath, false)
      | _ :: _ => (cwd ++ "/" ++ resolvedPath, isAbsolute cwd)
      end
  | p :: rest =>
      match p with
      | [] => resolveLoop rest cwd resolvedPath
      | _ :: _ =>
          if isAbsolute p then (p ++ "/" ++ resolvedPath, true)
          else resolveLoop rest cwd (p ++ "/" ++ resolvedPath)
      end
  end.

(** [path.resolve(...args)], in a process whose working directory is
    [cwd]. *)
Definition resolve (cwd : str) (args : list str) : str :=
  let '(resolvedPath, resolvedAbsolute) := resolveLoop (rev args) cwd [] in
  let resolvedPath := normalizeString resolvedPath (negb resolvedAbsolute) in
  if resolvedAbsolute then "/" ++ resolvedPath
  else match resolvedPath with
       | [] => "."
       | _ :: _ => resolvedPath
       end.

Fixpoint dropWhile (p : ascii -> bool) (s : str) : str :=
  match s with
  | [] => []
  | c :: t => if p c then dropWhile p t else s
  end.

(** [path.dirname(p)]: trailing slashes and the last component are
    stepped over from the right, never looking at the first character;
    the directory ends at the slash found there. *)
Definition dirname (p : str) : str :=
  match p with
  | [] => "."
  | c0 :: t =>
      let hasRoot := isSlash c0 in
      let upToEnd :=
        dropWhile (fun c => negb (isSlash c)) (dropWhile isSlash (rev t)) in
      match upToEnd with
      | [] => if hasRoot then "/" else "."
      | _ :: _ =>
          if hasRoot && (length upToEnd =? 1) then "//"
          else firstn (length upToEnd) p
      end
  end.

End path.

(* ================================================================= *)
(** ** Promises

    A promise is described by what it settles to and when, in milliseconds
    after the asynchronous function was called; synchronous code takes no
    time.  [Pending] is a promise that never settles. *)

Inductive promise (A : Type) : Type :=
| Fulfilled (ms : N) (value : A)
| Rejected (ms : N)
| Pending.

Arguments Fulfilled {A} ms value.
Arguments Rejected {A} ms.
Arguments Pending {A}.

Definition delay {A} (t : N) (p : promise A) : promise A :=
  match p with
  | Fulfilled t' v => Fulfilled (t + t') v
  | Rejected t' => Rejected (t + t')
  | Pending => Pending
  end.

(** [const x = await p; k x] *)
Definition await {A B} (p : promise A) (k : A -> promise B) : promise B :=
  match p with
  | Fulfilled t v => delay t (k v)
  | Rejected t => Rejected t
  | Pending => Pending
  end.

(** [try { body } catch { handler }] *)
Definition tryCatch {A} (body : promise A) (handler : promise A) : promise A :=
  match body with
  | Rejected t => delay t handler
  | _ => body
  end.

Notation "'let*' x ':=' p 'in' k" := (await p (fun x => k))
  (at level 10, x pattern, p at level 100, k at level 200).

(** Modelled from the spec: [withTimeout] of [utils.ts], which is not among
    the sources.  The operation races against a timer of [timeoutMs]
    milliseconds; when the operation has not completed by then (it
    "exceeded its time budget"), the result is [defaultValue] and the
    operation is abandoned. *)
Definition withTimeout {A} (operation : promise A) (timeoutMs : N)
    (defaultValue : A) : promise A :=
  match operation with
  | Fulfilled t v =>
      if (t <=? timeoutMs)%N then Fulfilled t v
      else Fulfilled timeoutMs defaultValue
  | Rejected t =>
      if (t <=? timeoutMs)%N then Rejected t
      else Fulfilled timeoutMs defaultValue
  | Pending => Fulfilled timeoutMs defaultValue
  end.

(* ================================================================= *)
(** ** [tools/filesystem.ts] *)

(** What [validatePath] reads from its surroundings: the working directory
    and the home directory of the process, the module variable
    [allowedDirectories], and the two calls of [fs/promises] it makes.
    [stat] and [realpath] reject for a path that does not exist. *)
Record Env : Type := mkEnv {
  cwd : str;
  homedir : str;
  allowedDirectories : list str;
  stat : str -> promise unit;
  realpath : str -> promise str
}.

Definition normalizePath (p : str) : str :=
  toLowerCase (path.normalize p).

Definition expandHome (env : Env) (filepath : str) : str :=
  if startsWith "~/" filepath || str_eqb filepath "~" then
    path.join [homedir env; skipn 1 filepath]
  else filepath.

(** [validateParentDirectories] calls itself on [parentDir]; [fuel] bounds
    the number of nested calls.  A call is only made on a path shorter than
    the current one, so the length of the path is fuel enough
    (see [validateParentDirectories_unfold]). *)
Fixpoint validateParentDirectoriesFrom (fuel : nat) (env : Env)
    (directoryPath : str) : promise bool :=
  let parentDir := path.dirname directoryPath in
  if str_eqb parentDir directoryPath
     || str_eqb parentDir (path.dirname parentDir)
  then Fulfilled 0 false
  else
    match fuel with
    | O => Pending
    | S fuel' =>
        tryCatch
          (let* _ := realpath env parentDir in Fulfilled 0 true)
          (validateParentDirectoriesFrom fuel' env parentDir)
    end.

Definition validateParentDirectories (env : Env) (directoryPath : str)
  : promise bool :=
  validateParentDirectoriesFrom (length directoryPath) env directoryPath.

Definition PATH_VALIDATION_TIMEOUT : N := 10000.

(** The first lines of [validationOperation]: [expandedPath], then
    [absolute]. *)
Definition absolutePath (env : Env) (requestedPath : str) : str :=
  let expandedPath := expandHome env requestedPath in
  if path.isAbsolute expandedPath
  then path.resolve (cwd env) [expandedPath]
  else path.resolve (cwd env) [cwd env; expandedPath].

(** [allowedDirectories.some(dir => ...)] *)
Definition isAllowed (env : Env) (absolute : str) : bool :=
  existsb
    (fun dir =>
       let normalizedDir := normalizePath dir in
       let normalizedPath := normalizePath absolute in
       str_eqb normalizedPath normalizedDir
       || startsWith (normalizedDir ++ path.sep) normalizedPath)
    (allowedDirectories env).

Definition accessDenied (absolute : str) : str :=
  "__ERROR__: Access denied. Path is not within allowed directories: "
  ++ absolute.

Definition timedOut (requestedPath : str) : str :=
  "__ERROR__: Path validation timed out after 10 seconds for: "
  ++ requestedPath.

Definition validationOperation (env : Env) (requestedPath : str)
  : promise str :=
  let absolute := absolutePath env requestedPath in
  if negb (isAllowed env absolute) then Fulfilled 0 (accessDenied absolute)
  else
    tryCatch
      (let* _ := stat env absolute in
       realpath env absolute)
      (let* found := validateParentDirectories env absolute in
       if found : bool then Fulfilled 0 absolute
       else Fulfilled 0 absolute).

(** The default value handed to [withTimeout] is [null]. *)
Definition validatePath (env : Env) (requestedPath : str) : promise str :=
  let* result :=
    withTimeout
      (let* r := validationOperation env requestedPath in Fulfilled 0 (Some r))
      PATH_VALIDATION_TIMEOUT None in
  match result with
  | None => Fulfilled 0 (timedOut requestedPath)
  | Some r => Fulfilled 0 r
  end.

(** How the callers of [validatePath] tell a denial or a timeout from a
    path: [validPath.startsWith('__ERROR__:')]. *)
Definition isError (validPath : str) : bool :=
  startsWith "__ERROR__:" validPath.

(* ================================================================= *)
(** ** The extraction of the base command as the specification words it

    "Strip all leading [KEY=VALUE] environment-variable assignment tokens
    (pattern: word characters, [=], non-whitespace, optionally repeated
    with separating whitespace) and only those; if nothing remains, the
    segment yields no command; otherwise take the first
    whitespace-delimited token."  This is the reading, not the code; the
    code is [extractBaseCommand]. *)

(** A whole token of the form [\w+=\S+]. *)
Definition isAssignment (token : str) : bool :=
  let '(key, r) := span isWord token in
  match key, r with
  | _ :: _, c :: _ :: _ => Ascii.eqb c "="%char
  | _, _ => false
  end.

Fixpoint stripLeadingAssignments (fuel : nat) (s : str) : str :=
  match fuel with
  | O => s
  | S fuel' =>
      let '(token, r) := span (fun c => negb (isSpace c)) s in
      if isAssignment token then stripLeadingAssignments fuel' (trimStart r)
      else s
  end.

Definition extractBaseCommand_leadingOnly (commandStr : str) : option str :=
  match trim (stripLeadingAssignments (length commandStr) commandStr) with
  | [] => None
  | (_ :: _) as remaining =>
      match firstToken remaining with
      | (c :: _) as token =>
          if Ascii.eqb c "("%char || Ascii.eqb c "$"%char then None
          else Some (toLowerCase token)
      | [] => None
      end
  end.

(** The text after a token: nothing, or white space first. *)
Definition tokenEnd (rest : str) : bool :=
  match rest with
  | [] => true
  | c :: _ => isSpace c
  end.

(** A text that no word runs out of: it is empty or its last character is
    no word character. *)
Fixpoint wordEnd (s : str) : bool :=
  match s with
  | [] => true
  | c :: t =>
      match t with
      | [] => negb (isWord c)
      | _ :: _ => wordEnd t
      end
  end.

(** A text without the sign [=]. *)
Definition noEquals (s : str) : bool :=
  forallb (fun c => negb (Ascii.eqb c "="%char)) s.

(** A text that does not start with white space. *)
Definition noSpaceStart (s : str) : bool :=
  match s with
  | [] => true
  | c :: _ => negb (isSpace c)
  end.

(** An assignment in a command line, with the text before it and the white
    space after it. *)
Record Assignment : Type := mkAssignment {
  a_before : str;
  a_key : str;
  a_value : str;
  a_spaces : str
}.

(** The text before holds no [=], does not start with white space and lets
    no word run into the key; key, value and white space are not empty and
    are made of word characters, of characters other than white space, and
    of white space. *)
Definition isAssignmentAfter (a : Assignment) : bool :=
  noEquals (a_before a) && wordEnd (a_before a) && noSpaceStart (a_before a)
  && negb (str_eqb (a_key a) []) && forallb isWord (a_key a)
  && negb (str_eqb (a_value a) [])
  && forallb (fun c => negb (isSpace c)) (a_value a)
  && negb (str_eqb (a_spaces a) []) && forallb isSpace (a_spaces a).

(** A command line with the assignments [l] in it, and the same line
    without them. *)
Fixpoint withAssignments (l : list Assignment) (tail : str) : str :=
  match l with
  | [] => tail
  | a :: l' =>
      a_before a ++ a_key a ++ "=" ++ a_value a ++ a_spaces a
      ++ withAssignments l' tail
  end.

Fixpoint withoutAssignments (l : list Assignment) (tail : str) : str :=
  match l with
  | [] => tail
  | a :: l' => a_before a ++ withoutAssignments l' tail
  end.

(* ================================================================= *)
(** ** Vocabulary for the statements about [extractCommands] *)

(** What the loop does at a separator: the segment is closed and a new one
    started. *)
Definition closeSegment (st : ScanState) : ScanState :=
  let st' := pushBaseCommand st in
  mkScan (inQuote st') (quoteChar st') [] (escaped st') (commands st').

(** The commands that a segment contributes: none or one. *)
Definition segmentCommands (segment : str) : list str :=
  commands (pushBaseCommand (mkScan false [] segment false [])).

(** A character that the loop gives no meaning to: no backslash, quote,
    opening parenthesis, nor the first character of a separator. *)
Definition isPlain (c : ascii) : bool :=
  negb (Ascii.eqb c "\"%char || Ascii.eqb c "034"%char || Ascii.eqb c "'"%char
        || Ascii.eqb c "("%char || Ascii.eqb c ";"%char
        || Ascii.eqb c "&"%char || Ascii.eqb c "|"%char).

Definition isQuote (c : ascii) : bool :=
  Ascii.eqb c "034"%char || Ascii.eqb c "'"%char.

(** The text between two matching quotes [q]: no [q] and no backslash. *)
Definition isQuoted (q : ascii) (body : str) : bool :=
  forallb (fun c => negb (Ascii.eqb c q) && negb (Ascii.eqb c "\"%char)) body.



(* ================================================================= *)
(** ** Vocabulary for the statements about [validatePath] *)

(** The promise settles, and does so within [budget] milliseconds. *)
Definition completesWithin {A} (budget : N) (p : promise A) : bool :=
  match p with
  | Fulfilled t _ => (t <=? budget)%N
  | Rejected t => (t <=? budget)%N
  | Pending => false
  end.

(** A small file system: the directory [/sandbox] is allowed and holds a
    symbolic link [/sandbox/link] to [/etc/passwd]; every call takes one
    millisecond. *)
Definition sandboxEnv : Env :=
  mkEnv "/work" "/home/u" ["/sandbox"; "/work"]
    (fun p =>
       if str_eqb p "/sandbox/link" || str_eqb p "/sandbox"
       then Fulfilled 1 tt else Rejected 1)
    (fun p =>
       if str_eqb p "/sandbox/link" then Fulfilled 1 "/etc/passwd"
       else if str_eqb p "/sandbox" then Fulfilled 1 "/sandbox"
       else Rejected 1).

(** The same, on a device that does not answer. *)
Definition hangingEnv : Env :=
  mkEnv "/work" "/home/u" ["/sandbox"; "/work"]
    (fun _ => Pending) (fun _ => Pending).

(** The same directories on a slow device, with nothing in them: [stat]
    fails after one millisecond, [realpath] after six seconds. *)
Definition slowEnv : Env :=
  mkEnv "/work" "/home/u" ["/sandbox"; "/work"]
    (fun _ => Rejected 1) (fun _ => Rejected 6000).

(* ================================================================= *)
(** ** The rest of [command-manager.ts] *)

(** [loadBlockedCommands]: the set is replaced by the default one (the
    line written to [stderr] is left out). *)
Definition loadBlockedCommands (m : CommandManager) : CommandManager :=
  mkCommandManager (StringSet.of_list DEFAULT_BLOCKED_COMMANDS).

(** The managers that the exported [commandManager] can become: it starts
    with the default set and changes by [loadBlockedCommands],
    [blockCommand] and [unblockCommand] only ([blockedCommands] is
    private). *)
Inductive reachable : CommandManager -> Prop :=
| reachable_initial : reachable commandManager
| reachable_load m : reachable m -> reachable (loadBlockedCommands m)
| reachable_block m name :
    reachable m -> reachable (snd (blockCommand m name))
| reachable_unblock m name :
    reachable m -> reachable (snd (unblockCommand m name)).

(** The text after a leading token of the gate: nothing, or a space. *)
Definition spaceEnd (rest : str) : bool :=
  match rest with
  | [] => true
  | c :: _ => Ascii.eqb c " "%char
  end.

Definition noParenthesis (s : str) : bool :=
  forallb (fun c => negb (Ascii.eqb c "("%char) && negb (Ascii.eqb c ")"%char)) s.

(* ================================================================= *)
(** ** The allow list: [parseCommandLineArgs], [loadAllowedDirectories]
    and the start-up check of [index.ts] *)

(** [s.split(sep)[1]] for a one-character separator: the text between the
    first and the second [sep].  Where JavaScript gives [undefined] (no
    [sep] in [s]) the model gives the empty string; the code tests the
    result for truthiness only, and both are falsy. *)
Fixpoint splitSecond (sep : ascii) (s : str) : str :=
  match s with
  | [] => []
  | c :: t => if Ascii.eqb c sep then splitHead sep t else splitSecond sep t
  end.

(** The loop of [parseCommandLineArgs] over [process.argv] from index 2 on;
    [args] are the arguments from the current index on.  After
    [--allowed-dir] or [-d] the loop takes the next argument and steps
    over it. *)
Fixpoint parseArgs (args : list str) : list str :=
  match args with
  | [] => []
  | arg :: rest =>
      if str_eqb arg "--allowed-dir" || str_eqb arg "-d" then
        match rest with
        | dirPath :: rest' => dirPath :: parseArgs rest'
        | [] => []
        end
      else if startsWith "--allowed-dir=" arg then
        match splitSecond "="%char arg with
        | [] => parseArgs rest
        | (_ :: _) as dirPath => dirPath :: parseArgs rest
        end
      else parseArgs rest
  end.

Definition parseCommandLineArgs (argv : list str) : option (list str) :=
  match parseArgs (skipn 2 argv) with
  | [] => None
  | (_ :: _) as directories => Some directories
  end.

(** [index.ts], [runServer]: [process.argv.some(arg => ...)]. *)
Definition hasAllowedDir (argv : list str) : bool :=
  existsb
    (fun arg =>
       str_eqb arg "--allowed-dir" || str_eqb arg "-d"
       || startsWith "--allowed-dir=" arg)
    argv.

(** What reading and parsing the configuration file comes to: the read or
    [JSON.parse] raises, or the object has no array [allowedDirectories],
    or it has one. *)
Inductive ConfigFile : Type :=
| ConfigUnreadable
| ConfigWithoutDirectories
| ConfigDirectories (directories : list str).

(** [if (!dirs.includes(process.cwd())) dirs.push(process.cwd())] *)
Definition withCwd (cwd : str) (directories : list str) : list str :=
  if existsb (str_eqb cwd) directories then directories
  else directories ++ [cwd].

(** The initial value of the module variable [allowedDirectories]. *)
Definition defaultAllowedDirectories (cwd : str) : list str :=
  [ "/Users/wenleliao/opensource"; "/Users/wenleliao/doc";
    "/Users/wenleliao/RiderProjects"; "/Users/wenleliao/Documents/Cline/MCP";
    cwd ].

(** [loadAllowedDirectories]: the value of [allowedDirectories] afterwards,
    from its value [current] before. *)
Definition loadAllowedDirectories (argv : list str) (cwd : str)
    (config : ConfigFile) (current : list str) : list str :=
  match parseCommandLineArgs argv with
  | Some cmdDirs => withCwd cwd cmdDirs
  | None =>
      match config with
      | ConfigDirectories directories => withCwd cwd directories
      | ConfigWithoutDirectories => current
      | ConfigUnreadable => current
      end
  end.

(** An argument that is none of the three forms of the flag. *)
Definition isOtherArgument (arg : str) : bool :=
  negb (str_eqb arg "--allowed-dir" || str_eqb arg "-d"
        || startsWith "--allowed-dir=" arg).

(* ================================================================= *)
(** ** Vocabulary for the statements about the containment check *)

(** The test that [validatePath] makes for one allowed directory. *)
Definition dirAdmits (dir absolute : str) : bool :=
  let normalizedDir := normalizePath dir in
  let normalizedPath := normalizePath absolute in
  str_eqb normalizedPath normalizedDir
  || startsWith (normalizedDir ++ path.sep) normalizedPath.

(** A path segment: not empty, no slash. *)
Definition isSegment (seg : str) : bool :=
  negb (str_eqb seg []) && forallb (fun c => negb (path.isSlash c)) seg.

(** A segment that names something: not [.] and not [..]. *)
Definition isProper (seg : str) : bool :=
  isSegment seg && negb (str_eqb seg ".") && negb (str_eqb seg "..").

(** The segments of [s.split('/')] that normalization keeps when there is
    no [..]: the empty ones and [.] go. *)
Definition keepSegment (seg : str) : bool :=
  negb (str_eqb seg [] || str_eqb seg ".").

Definition noDotDot (p : str) : bool :=
  forallb (fun seg => negb (str_eqb seg "..")) (path.segments p).

Fixpoint hasDoubleSlash (s : str) : bool :=
  match s with
  | [] => false
  | c :: t => path.isSlash c && path.isAbsolute t || hasDoubleSlash t
  end.

(** A path as [process.cwd()] returns it: absolute and left as it is by
    [path.resolve]. *)
Definition isResolved (p : str) : bool :=
  path.isAbsolute p && str_eqb (path.resolve p [p]) p.

(** Nothing, or a slash first. *)
Definition slashEnd (rest : str) : bool :=
  match rest with
  | [] => true
  | c :: _ => path.isSlash c
  end.

(** [readMultipleFiles] validates [filePath] and hands the result to
    [readFile], whose [readFileFromDisk] validates what it is given: the
    two validations, before anything is read (the dynamic import of the
    MIME-type module between them is left out). *)
Definition validateTwice (env : Env) (filePath : str) : promise str :=
  let* validPath := validatePath env filePath in
  validatePath env validPath.

(* ================================================================= *)
(** * Properties *)

(** ** Strings and sets of strings *)

Lemma str_eqb_eq (a b : str) : str_eqb a b = true <-> a = b.
Proof.
  revert b; induction a as [|x a IH]; destruct b as [|y b]; simpl;
    try (split; congruence).
  rewrite andb_true_iff, Ascii.eqb_eq, IH. split.
  - intros [-> ->]; reflexivity.
  - intros H; inversion H; auto.
Qed.

Lemma str_eqb_refl (a : str) : str_eqb a a = true.
Proof. apply str_eqb_eq; reflexivity. Qed.

Lemma str_eqb_neq (a b : str) : str_eqb a b = false <-> a <> b.
Proof.
  rewrite <- str_eqb_eq. destruct (str_eqb a b); split; congruence.
Qed.

Lemma str_eqb_sym (a b : str) : str_eqb a b = str_eqb b a.
Proof.
  destruct (str_eqb a b) eqn:E.
  - apply str_eqb_eq in E; subst; symmetry; apply str_eqb_refl.
  - symmetry; apply str_eqb_neq; apply str_eqb_neq in E; congruence.
Qed.

Ltac each_char c :=
  destruct c as [[] [] [] [] [] [] [] []]; try reflexivity; try discriminate.

Lemma isSpace_lowerChar (c : ascii) : isSpace (lowerChar c) = isSpace c.
Proof. each_char c. Qed.

Lemma isSpace_not_word (c : ascii) : isSpace c = true -> isWord c = false.
Proof. each_char c. Qed.

Lemma trimStart_app (a b : str) :
  trimStart (a ++ b) =
  match trimStart a with
  | [] => trimStart b
  | r => r ++ b
  end.
Proof.
  induction a as [|c a IH]; simpl.
  - destruct (trimStart b); reflexivity.
  - destruct (isSpace c); [exact IH | reflexivity].
Qed.

Lemma trimStart_keep (c : ascii) (s : str) :
  isSpace c = false -> trimStart (c :: s) = c :: s.
Proof. simpl; intros ->; reflexivity. Qed.

(** [trimEnd], read from the left. *)
Lemma trimEnd_cons (c : ascii) (s : str) :
  trimEnd (c :: s) =
  match trimEnd s with
  | [] => if isSpace c then [] else [c]
  | r => c :: r
  end.
Proof.
  unfold trimEnd; simpl. rewrite trimStart_app.
  destruct (trimStart (rev s)) as [|x r] eqn:E; simpl.
  - destruct (isSpace c); reflexivity.
  - rewrite rev_app_distr; simpl.
    destruct (rev r ++ [x]) eqn:E'; [|reflexivity].
    destruct (rev r); discriminate.
Qed.

Lemma trimEnd_nonspace (s : str) :
  forallb (fun c => negb (isSpace c)) s = true -> trimEnd s = s.
Proof.
  induction s as [|c s IH]; [reflexivity|].
  simpl; intros H; apply andb_true_iff in H as [Hc H].
  rewrite trimEnd_cons, (IH H).
  destruct s; [|reflexivity].
  apply negb_true_iff in Hc; rewrite Hc; reflexivity.
Qed.

Lemma splitHead_app (sep : ascii) (a b : str) :
  forallb (fun c => negb (Ascii.eqb c sep)) a = true ->
  splitHead sep (a ++ sep :: b) = a.
Proof.
  induction a as [|c a IH]; simpl.
  - rewrite Ascii.eqb_refl; reflexivity.
  - intros H; apply andb_true_iff in H as [Hc H].
    apply negb_true_iff in Hc; rewrite Hc, (IH H); reflexivity.
Qed.

Lemma splitHead_free (sep : ascii) (s : str) :
  forallb (fun c => negb (Ascii.eqb c sep)) (splitHead sep s) = true.
Proof.
  induction s as [|c s IH]; simpl; [reflexivity|].
  destruct (Ascii.eqb c sep) eqn:E; simpl; [reflexivity|].
  rewrite E; exact IH.
Qed.

Lemma has_app (x : str) (s1 s2 : StringSet.t) :
  StringSet.has x (s1 ++ s2) = StringSet.has x s1 || StringSet.has x s2.
Proof. apply existsb_app. Qed.

Lemma has_add (x y : str) (s : StringSet.t) :
  StringSet.has x (StringSet.add y s) = StringSet.has x s || str_eqb x y.
Proof.
  unfold StringSet.add. destruct (StringSet.has y s) eqn:E.
  - destruct (str_eqb x y) eqn:Exy; [|rewrite orb_false_r; reflexivity].
    apply str_eqb_eq in Exy; subst. rewrite E; reflexivity.
  - rewrite has_app; simpl. rewrite orb_false_r; reflexivity.
Qed.

Lemma has_delete (x y : str) (s : StringSet.t) :
  StringSet.has x (StringSet.delete y s) =
  StringSet.has x s && negb (str_eqb x y).
Proof.
  unfold StringSet.has, StringSet.delete.
  induction s as [|z s IH]; simpl; [reflexivity|].
  destruct (str_eqb y z) eqn:Eyz; simpl.
  - apply str_eqb_eq in Eyz; subst z. rewrite IH.
    destruct (str_eqb x y); simpl; [rewrite andb_false_r|]; reflexivity.
  - rewrite IH. destruct (str_eqb x z) eqn:Exz; simpl; [|reflexivity].
    apply str_eqb_eq in Exz; subst z.
    rewrite str_eqb_sym, Eyz; reflexivity.
Qed.

Lemma delete_absent (x : str) (s : StringSet.t) :
  StringSet.has x s = false -> StringSet.delete x s = s.
Proof.
  unfold StringSet.has, StringSet.delete.
  induction s as [|z s IH]; simpl; [reflexivity|].
  intros H; apply orb_false_iff in H as [Hz H].
  rewrite Hz; simpl; rewrite (IH H); reflexivity.
Qed.

Lemma delete_add_fresh (x : str) (s : StringSet.t) :
  StringSet.has x s = false -> StringSet.delete x (StringSet.add x s) = s.
Proof.
  intros H. unfold StringSet.add; rewrite H.
  unfold StringSet.delete. rewrite filter_app; simpl.
  rewrite str_eqb_refl; simpl. rewrite app_nil_r.
  apply delete_absent; exact H.
Qed.

(** ** Sorting *)

Lemma str_leb_total (a b : str) : str_leb a b = true \/ str_leb b a = true.
Proof.
  revert b; induction a as [|x a IH]; destruct b as [|y b]; simpl; auto.
  rewrite (N.compare_antisym (N_of_ascii x) (N_of_ascii y)).
  destruct (N_of_ascii x ?= N_of_ascii y)%N; simpl; auto.
Qed.

Lemma str_leb_trans (a b c : str) :
  str_leb a b = true -> str_leb b c = true -> str_leb a c = true.
Proof.
  revert b c; induction a as [|x a IH]; intros [|y b] [|z c]; simpl;
    try congruence.
  destruct (N_of_ascii x ?= N_of_ascii y)%N eqn:Exy;
    destruct (N_of_ascii y ?= N_of_ascii z)%N eqn:Eyz; try congruence.
  - apply N.compare_eq in Exy, Eyz. rewrite Exy, Eyz, N.compare_refl.
    apply IH.
  - apply N.compare_eq in Exy. rewrite Exy, Eyz; reflexivity.
  - apply N.compare_eq in Eyz. rewrite <- Eyz, Exy; reflexivity.
  - intros _ _. rewrite N.compare_lt_iff in *.
    assert (N_of_ascii x < N_of_ascii z)%N as H by lia.
    apply N.compare_lt_iff in H; rewrite H; reflexivity.
Qed.

Lemma str_leb_antisym (a b : str) :
  str_leb a b = true -> str_leb b a = true -> a = b.
Proof.
  revert b; induction a as [|x a IH]; intros [|y b]; simpl; try congruence.
  rewrite (N.compare_antisym (N_of_ascii x) (N_of_ascii y)).
  destruct (N_of_ascii x ?= N_of_ascii y)%N eqn:E; simpl; try congruence.
  intros H1 H2. apply N.compare_eq in E.
  apply (f_equal ascii_of_N) in E. rewrite !ascii_N_embedding in E.
  subst y. f_equal; auto.
Qed.

Lemma sort_insert_perm (x : str) (l : list str) :
  Permutation (sort_insert x l) (x :: l).
Proof.
  induction l as [|y l IH]; simpl; [reflexivity|].
  destruct (str_leb x y); [reflexivity|].
  rewrite IH. apply perm_swap.
Qed.

Lemma sort_perm (l : list str) : Permutation (sort l) l.
Proof.
  induction l as [|x l IH]; simpl; [constructor|].
  rewrite sort_insert_perm. constructor; exact IH.
Qed.

Lemma sort_insert_sorted (x : str) (l : list str) :
  StronglySorted str_le l -> StronglySorted str_le (sort_insert x l).
Proof.
  induction 1 as [|y l Hs IH Hall]; simpl.
  - repeat constructor.
  - destruct (str_leb x y) eqn:E.
    + constructor; [constructor; assumption|].
      constructor; [exact E|].
      eapply Forall_impl; [|exact Hall].
      intros z Hz. eapply str_leb_trans; eassumption.
    + constructor; [exact IH|].
      assert (Forall (str_le y) (x :: l)) as H.
      { constructor; [|exact Hall].
        destruct (str_leb_total x y); [congruence|assumption]. }
      eapply Permutation_Forall; [|exact H].
      symmetry; apply sort_insert_perm.
Qed.

Lemma sort_sorted (l : list str) : StronglySorted str_le (sort l).
Proof.
  induction l as [|x l IH]; simpl; [constructor|].
  apply sort_insert_sorted; exact IH.
Qed.

(** The sorted array is determined by the elements: the result does not
    depend on the sorting algorithm. *)
Lemma sorted_unique (l1 l2 : list str) :
  StronglySorted str_le l1 -> StronglySorted str_le l2 ->
  Permutation l1 l2 -> l1 = l2.
Proof.
  intros H1; revert l2; induction H1 as [|x l1 Hs IH Hx]; intros l2 H2 P.
  - apply Permutation_nil in P; subst; reflexivity.
  - destruct H2 as [|y l2 Hs2 Hy].
    + apply Permutation_sym, Permutation_nil in P; discriminate.
    + assert (x = y) as <-.
      { assert (In x (y :: l2)) as [->|Hin]
          by (apply (Permutation_in _ P); left; reflexivity);
          [reflexivity|].
        assert (In y (x :: l1)) as [->|Hin']
          by (apply (Permutation_in _ (Permutation_sym P)); left; reflexivity);
          [reflexivity|].
        rewrite Forall_forall in Hx, Hy.
        apply str_leb_antisym; [apply Hx | apply Hy]; assumption. }
      f_equal. apply IH; [exact Hs2|].
      apply (Permutation_cons_inv P).
Qed.

Lemma sort_unique (l sorted : list str) :
  StronglySorted str_le sorted -> Permutation sorted l -> sorted = sort l.
Proof.
  intros H P. apply sorted_unique; [exact H | apply sort_sorted|].
  rewrite P. symmetry; apply sort_perm.
Qed.

(** ** The gate: [getBaseCommand] and [validateCommand] *)

Lemma splitHead_idem (sep : ascii) (s tail : str) :
  splitHead sep (splitHead sep s ++ sep :: tail) = splitHead sep s.
Proof. apply splitHead_app, splitHead_free. Qed.

Lemma getBaseCommand_head (command tail : str) :
  getBaseCommand (splitHead " "%char command ++ " " ++ tail)
  = getBaseCommand command.
Proof.
  unfold getBaseCommand. simpl app.
  rewrite splitHead_idem; reflexivity.
Qed.

Lemma extractCommands_total (n : nat) (s : str) :
  exists r, extractCommands (S n) s = Some r.
Proof.
  simpl. destruct (scan _ _ _ _); eauto.
Qed.

(** C2. The gate looks at the leading token only.  [validateCommand] gives
    the same answer for a command line and for any other line with the same
    text before the first space; with the default block list it refuses
    [sudo rm -rf /] and lets [ls; sudo rm -rf /] pass, a line in which
    [extractCommands] does find [sudo]. *)
Theorem validateCommand_leading_token_only :
  (forall m command,
      validateCommand m command
      = negb (StringSet.has (trim (toLowerCase (splitHead " "%char command)))
                            (blockedCommands m)))
  /\ (forall m command tail,
         validateCommand m (splitHead " "%char command ++ " " ++ tail)
         = validateCommand m command)
  /\ validateCommand commandManager "sudo rm -rf /" = false
  /\ validateCommand commandManager "ls; sudo rm -rf /" = true
  /\ (forall n, extractCommands (S n) "ls; sudo rm -rf /"
                = Some ["ls"; "sudo"]).
Proof.
  split; [reflexivity|].
  split.
  { intros m command tail. unfold validateCommand.
    rewrite getBaseCommand_head; reflexivity. }
  repeat split; reflexivity.
Qed.

(** ** The block list: [blockCommand], [unblockCommand], [listBlockedCommands] *)

(** C9. [blockCommand] answers [true] exactly when the normalized name was
    not in the set, and afterwards the set is the old one with that name
    added; a second call answers [false] and changes nothing.
    [unblockCommand] answers [true] exactly when the name was in the set,
    and removes it; it undoes a [blockCommand] that answered [true].
    [listBlockedCommands] is the set in sorted order.  With the default
    list, blocking [curl] closes the gate for [curl http://x] and unblocking
    opens it again. *)
Theorem blockCommand_unblockCommand_list :
  (forall m name,
      blockCommand m name
      = if StringSet.has (trim (toLowerCase name)) (blockedCommands m)
        then (false, m)
        else (true, mkCommandManager
                      (blockedCommands m ++ [trim (toLowerCase name)])))
  /\ (forall m name x,
         StringSet.has x (blockedCommands (snd (blockCommand m name)))
         = StringSet.has x (blockedCommands m)
           || str_eqb x (trim (toLowerCase name)))
  /\ (forall m name,
         blockCommand (snd (blockCommand m name)) name
         = (false, snd (blockCommand m name)))
  /\ (forall m name,
         fst (unblockCommand m name)
         = StringSet.has (trim (toLowerCase name)) (blockedCommands m))
  /\ (forall m name x,
         StringSet.has x (blockedCommands (snd (unblockCommand m name)))
         = StringSet.has x (blockedCommands m)
           && negb (str_eqb x (trim (toLowerCase name))))
  /\ (forall m name,
         unblockCommand (snd (unblockCommand m name)) name
         = (false, snd (unblockCommand m name)))
  /\ (forall m name,
         unblockCommand (snd (blockCommand m name)) name
         = (true,
            if fst (blockCommand m name) then m
            else mkCommandManager
                   (StringSet.delete (trim (toLowerCase name))
                                     (blockedCommands m))))
  /\ (forall m,
         StronglySorted str_le (listBlockedCommands m)
         /\ Permutation (listBlockedCommands m) (blockedCommands m))
  /\ (let m0 := commandManager in
      let m1 := snd (blockCommand m0 "curl") in
      let m2 := snd (unblockCommand m1 "curl") in
      validateCommand m0 "curl http://x" = true
      /\ fst (blockCommand m0 "curl") = true
      /\ validateCommand m1 "curl http://x" = false
      /\ blockCommand m1 "curl" = (false, m1)
      /\ unblockCommand m1 "curl" = (true, m0)
      /\ validateCommand m2 "curl http://x" = true
      /\ unblockCommand m2 "curl" = (false, m2)).
Proof.
  assert (Hset : forall m name,
      blockedCommands (snd (blockCommand m name))
      = StringSet.add (trim (toLowerCase name)) (blockedCommands m)).
  { intros m name. unfold blockCommand, StringSet.add.
    destruct (StringSet.has _ _); reflexivity. }
  assert (Hfst : forall m name,
      fst (blockCommand m name)
      = negb (StringSet.has (trim (toLowerCase name)) (blockedCommands m))).
  { intros m name. unfold blockCommand.
    destruct (StringSet.has _ _); reflexivity. }
  split.
  { intros m name. unfold blockCommand, StringSet.add.
    destruct (StringSet.has _ _); reflexivity. }
  split; [intros m name x; rewrite Hset; apply has_add|].
  split.
  { intros m name. unfold blockCommand at 1.
    rewrite Hset, has_add, str_eqb_refl, orb_true_r. reflexivity. }
  split.
  { intros m name. unfold unblockCommand.
    destruct (StringSet.has _ _); reflexivity. }
  split.
  { intros m name x. unfold unblockCommand.
    destruct (StringSet.has (trim (toLowerCase name)) (blockedCommands m)) eqn:E;
      simpl; [apply has_delete|].
    destruct (str_eqb x _) eqn:Ex; simpl; [|apply eq_sym, andb_true_r].
    apply str_eqb_eq in Ex; subst x. rewrite E; reflexivity. }
  split.
  { intros m name. unfold unblockCommand at 2 3.
    destruct (StringSet.has (trim (toLowerCase name)) (blockedCommands m)) eqn:E;
      simpl; unfold unblockCommand; simpl.
    - rewrite has_delete, str_eqb_refl, andb_false_r; reflexivity.
    - rewrite E; reflexivity. }
  split.
  { intros m name. unfold unblockCommand.
    rewrite Hset, has_add, str_eqb_refl, orb_true_r, Hfst. simpl.
    destruct (StringSet.has (trim (toLowerCase name)) (blockedCommands m)) eqn:E;
      simpl.
    - unfold StringSet.add; rewrite E; reflexivity.
    - rewrite (delete_add_fresh _ _ E). destruct m; reflexivity. }
  split; [intros m; split; [apply sort_sorted | apply sort_perm]|].
  repeat split; reflexivity.
Qed.

(** ** White space other than the space character in the leading token *)

Lemma nonspace_not_blank (s : str) :
  forallb (fun c => negb (isSpace c)) s = true ->
  forallb (fun c => negb (Ascii.eqb c " "%char)) s = true.
Proof.
  induction s as [|c s IH]; simpl; [reflexivity|].
  intros H; apply andb_true_iff in H as [Hc H]. rewrite (IH H), andb_true_r.
  destruct (Ascii.eqb c " "%char) eqn:E; [|reflexivity].
  apply Ascii.eqb_eq in E; subst c; discriminate.
Qed.

Lemma trimEnd_last (s : str) (z : ascii) :
  isSpace z = false -> trimEnd (s ++ [z]) = s ++ [z].
Proof.
  intros Hz. induction s as [|c s IH]; simpl.
  - rewrite trimEnd_cons; simpl. rewrite Hz; reflexivity.
  - rewrite trimEnd_cons, IH. destruct (s ++ [z]) eqn:E; [|reflexivity].
    destruct s; discriminate.
Qed.

Lemma trim_inner (a z : ascii) (s : str) :
  isSpace a = false -> isSpace z = false ->
  trim (a :: s ++ [z]) = a :: s ++ [z].
Proof.
  intros Ha Hz. unfold trim. rewrite trimStart_keep by exact Ha.
  apply (trimEnd_last (a :: s) z Hz).
Qed.

Lemma has_In (x : str) (s : StringSet.t) :
  StringSet.has x s = true <-> In x s.
Proof.
  unfold StringSet.has. rewrite existsb_exists. split.
  - intros (y & Hy & E). apply str_eqb_eq in E; subst; exact Hy.
  - intros H; exists x; split; [exact H | apply str_eqb_refl].
Qed.

(** C10, as the code has it.  The leading token is cut at the first space
    only, then lower-cased and trimmed.  When the executable name is followed
    by another white-space character and that one by more text before the
    first space, the base command is the whole lower-cased token, white
    space included; it is not the executable name, and the gate lets the
    line pass unless that very token has been blocked, which no name without
    white space (such as the default ones) can do. *)
Theorem getBaseCommand_splits_on_space_only
    (m : CommandManager) (name rest tail : str) (a z w : ascii)
    (Hname : forallb (fun c => negb (isSpace c)) (a :: name) = true)
    (Hw : isSpace w = true) (Hblank : w <> " "%char)
    (Hrest : forallb (fun c => negb (isSpace c)) (rest ++ [z]) = true) :
  let token := (a :: name) ++ w :: rest ++ [z] in
  let command := token ++ " " ++ tail in
  getBaseCommand command = toLowerCase token
  /\ getBaseCommand command <> toLowerCase (a :: name)
  /\ validateCommand m command
     = negb (StringSet.has (toLowerCase token) (blockedCommands m))
  /\ (forallb (forallb (fun c => negb (isSpace c))) (blockedCommands m) = true ->
      validateCommand m command = true).
Proof.
  intros token command.
  assert (Hbase : getBaseCommand command = toLowerCase token).
  { assert (Htoken : token = a :: (name ++ w :: rest) ++ [z]).
    { unfold token; simpl. rewrite <- app_assoc; reflexivity. }
    unfold getBaseCommand, command.
    change (token ++ " " ++ tail) with (token ++ " "%char :: tail).
    rewrite splitHead_app.
    - rewrite Htoken. unfold toLowerCase. simpl. rewrite map_app. simpl.
      simpl in Hname; apply andb_true_iff in Hname as [Ha _].
      rewrite forallb_app in Hrest; apply andb_true_iff in Hrest as [_ Hz].
      simpl in Hz; rewrite andb_true_r in Hz.
      apply trim_inner; rewrite isSpace_lowerChar;
        apply negb_true_iff; assumption.
    - unfold token. rewrite forallb_app. apply andb_true_iff; split.
      + apply nonspace_not_blank; exact Hname.
      + simpl. apply andb_true_iff; split.
        * apply negb_true_iff. destruct (Ascii.eqb w " "%char) eqn:E; auto.
          apply Ascii.eqb_eq in E; contradiction.
        * apply nonspace_not_blank; exact Hrest. }
  split; [exact Hbase|].
  split.
  { rewrite Hbase. intros E. apply (f_equal (@length ascii)) in E.
    unfold token, toLowerCase in E. rewrite !length_map, length_app in E.
    simpl in E. lia. }
  split; [unfold validateCommand; rewrite Hbase; reflexivity|].
  intros Hall. unfold validateCommand; rewrite Hbase.
  apply negb_true_iff.
  destruct (StringSet.has (toLowerCase token) (blockedCommands m)) eqn:E;
    [|reflexivity].
  apply has_In in E. rewrite forallb_forall in Hall. apply Hall in E.
  rewrite forallb_forall in E.
  assert (In (lowerChar w) (toLowerCase token)) as Hin.
  { unfold token, toLowerCase. apply in_map, in_or_app; right; left; reflexivity. }
  apply E in Hin. rewrite isSpace_lowerChar, Hw in Hin; discriminate.
Qed.

Lemma getBaseCommand_splits_on_space_only_witness :
  getBaseCommand ("sudo" ++ TAB :: "rm" ++ " " ++ "-rf /") = "sudo" ++ TAB :: "rm"
  /\ validateCommand commandManager ("sudo" ++ TAB :: "rm" ++ " " ++ "-rf /")
     = true.
Proof.
  destruct (@getBaseCommand_splits_on_space_only commandManager
              "udo" "r" "-rf /" "s"%char "m"%char TAB)
    as (H1 & _ & _ & H4);
    [reflexivity | reflexivity | discriminate | reflexivity |].
  split; [exact H1 | apply H4; reflexivity].
Defined.

(** C10, as the claim has it: a tab directly followed by a space.  The token
    before the first space is [sudo] and the tab, the [trim] removes the
    tab, and the gate refuses. *)
Lemma validateCommand_tab_before_space :
  splitHead " "%char ("sudo" ++ TAB :: " rm -rf /") = "sudo" ++ [TAB]
  /\ getBaseCommand ("sudo" ++ TAB :: " rm -rf /") = "sudo"
  /\ StringSet.has "sudo" (blockedCommands commandManager) = true
  /\ validateCommand commandManager ("sudo" ++ TAB :: " rm -rf /") = false.
Proof. repeat split; reflexivity. Qed.

(** ** [extractBaseCommand]: the regular expression and the first token *)

Lemma span_app (p : ascii -> bool) (a b : str) :
  forallb p a = true ->
  span p (a ++ b) = (a ++ fst (span p b), snd (span p b)).
Proof.
  induction a as [|c a IH]; simpl.
  - destruct (span p b); reflexivity.
  - intros H; apply andb_true_iff in H as [-> H].
    rewrite (IH H); reflexivity.
Qed.

Lemma span_stop (p : ascii -> bool) (s : str) :
  match s with [] => true | c :: _ => negb (p c) end = true ->
  span p s = ([], s).
Proof.
  destruct s as [|c s]; simpl; [reflexivity|].
  intros H; apply negb_true_iff in H; rewrite H; reflexivity.
Qed.

Lemma span_exact (p : ascii -> bool) (a b : str) :
  forallb p a = true ->
  match b with [] => true | c :: _ => negb (p c) end = true ->
  span p (a ++ b) = (a, b).
Proof.
  intros Ha Hb. rewrite (span_app p a b Ha), (span_stop p b Hb); simpl.
  rewrite app_nil_r; reflexivity.
Qed.

Lemma span_isSpace_snd (s : str) : snd (span isSpace s) = trimStart s.
Proof.
  induction s as [|c s IH]; simpl; [reflexivity|].
  destruct (isSpace c); [|reflexivity].
  destruct (span isSpace s); exact IH.
Qed.

Lemma span_length (p : ascii -> bool) (s : str) :
  skipn (length (fst (span p s))) s = snd (span p s).
Proof.
  induction s as [|c s IH]; simpl; [reflexivity|].
  destruct (p c); [|reflexivity].
  destruct (span p s); simpl in *; exact IH.
Qed.

Lemma removeEnvVars_skip (s : str) (k : nat) :
  removeEnvVars s k = removeEnvVars (skipn k s) 0.
Proof.
  revert k; induction s as [|c s IH]; intros [|k]; try reflexivity.
  simpl skipn. rewrite <- IH. reflexivity.
Qed.

Lemma removeEnvVars_match (s : str) (n : nat) :
  matchEnvVar s = Some (S n) ->
  removeEnvVars s 0 = removeEnvVars (skipn (S n) s) 0.
Proof.
  destruct s as [|c s]; [discriminate|].
  intros H. cbn [removeEnvVars]. rewrite H.
  rewrite removeEnvVars_skip. simpl. rewrite Nat.sub_0_r; reflexivity.
Qed.

Lemma matchEnvVar_space (c : ascii) (s : str) :
  isSpace c = true -> matchEnvVar (c :: s) = None.
Proof.
  intros H. unfold matchEnvVar; simpl.
  rewrite (isSpace_not_word c H); reflexivity.
Qed.

Lemma removeEnvVars_spaces (s : str) :
  trimStart (removeEnvVars s 0) = trimStart (removeEnvVars (trimStart s) 0).
Proof.
  induction s as [|c s IH]; [reflexivity|].
  cbn [trimStart]. destruct (isSpace c) eqn:E; [|reflexivity].
  cbn [removeEnvVars]. rewrite (matchEnvVar_space c s E).
  cbn [trimStart]. rewrite E. exact IH.
Qed.

(** The regular expression matches an assignment that stands at the start
    and is followed by white space, and takes all of that white space. *)
Lemma matchEnvVar_assignment (k v s : ascii) (key value spaces rest : str) :
  forallb isWord (k :: key) = true ->
  forallb (fun c => negb (isSpace c)) (v :: value) = true ->
  forallb isSpace (s :: spaces) = true ->
  matchEnvVar ((k :: key) ++ "=" ++ (v :: value) ++ (s :: spaces) ++ rest)
  = Some (length (k :: key) + 1 + length (v :: value)
          + length ((s :: spaces) ++ fst (span isSpace rest))).
Proof.
  intros Hk Hv Hs. unfold matchEnvVar.
  rewrite (span_exact isWord (k :: key)
             ("=" ++ (v :: value) ++ (s :: spaces) ++ rest) Hk)
    by reflexivity.
  cbn [app]. rewrite Ascii.eqb_refl.
  change (v :: value ++ s :: spaces ++ rest)
    with ((v :: value) ++ (s :: spaces) ++ rest).
  rewrite (span_exact (fun c => negb (isSpace c)) (v :: value)
             ((s :: spaces) ++ rest) Hv).
  2:{ simpl. simpl in Hs. apply andb_true_iff in Hs as [-> _]; reflexivity. }
  rewrite (span_app isSpace (s :: spaces) rest Hs).
  reflexivity.
Qed.

Lemma removeEnvVars_assignment (k v s : ascii) (key value spaces rest : str) :
  forallb isWord (k :: key) = true ->
  forallb (fun c => negb (isSpace c)) (v :: value) = true ->
  forallb isSpace (s :: spaces) = true ->
  removeEnvVars
    ((k :: key) ++ "=" ++ (v :: value) ++ (s :: spaces) ++ rest) 0
  = removeEnvVars (trimStart rest) 0.
Proof.
  intros Hk Hv Hs.
  pose proof (matchEnvVar_assignment k v s key value spaces rest Hk Hv Hs) as M.
  cbn [length Nat.add] in M.
  rewrite (removeEnvVars_match _ _ M). f_equal.
  rewrite <- span_isSpace_snd, <- span_length.
  set (ws := fst (span isSpace rest)).
  replace ((k :: key) ++ "=" ++ (v :: value) ++ (s :: spaces) ++ rest)
    with (((k :: key) ++ "=" ++ (v :: value) ++ (s :: spaces)) ++ rest)
    by (rewrite <- !app_assoc; reflexivity).
  replace (S (length key + 1 + S (length value)
              + length ((s :: spaces) ++ ws)))
    with (length ((k :: key) ++ "=" ++ (v :: value) ++ (s :: spaces))
          + length ws).
  - rewrite skipn_app, skipn_all2 by lia.
    replace (length ((k :: key) ++ "=" ++ (v :: value) ++ (s :: spaces))
             + length ws
             - length ((k :: key) ++ "=" ++ (v :: value) ++ (s :: spaces)))
      with (length ws) by lia.
    reflexivity.
  - simpl. rewrite !length_app. simpl. rewrite !length_app. simpl. lia.
Qed.

Lemma removeEnvVars_assignment_alone (k v : ascii) (key value : str) :
  forallb isWord (k :: key) = true ->
  forallb (fun c => negb (isSpace c)) (v :: value) = true ->
  removeEnvVars ((k :: key) ++ "=" ++ (v :: value)) 0 = [].
Proof.
  intros Hk Hv.
  assert (M : matchEnvVar ((k :: key) ++ "=" ++ (v :: value))
              = Some (length (k :: key) + 1 + length (v :: value) + 0)).
  { unfold matchEnvVar.
    rewrite (span_exact isWord (k :: key) ("=" ++ (v :: value)) Hk)
      by reflexivity.
    cbn [app]. rewrite Ascii.eqb_refl.
    rewrite <- (app_nil_r (v :: value)) at 1.
    rewrite (span_exact (fun c => negb (isSpace c)) (v :: value) [] Hv)
      by reflexivity.
    reflexivity. }
  cbn [length Nat.add] in M.
  rewrite (removeEnvVars_match _ _ M).
  rewrite skipn_all2; [reflexivity|].
  simpl. rewrite !length_app. simpl. lia.
Qed.

Lemma extractBaseCommand_ext (s1 s2 : str) :
  trimStart (removeEnvVars s1 0) = trimStart (removeEnvVars s2 0) ->
  extractBaseCommand s1 = extractBaseCommand s2.
Proof.
  intros H. unfold extractBaseCommand, trim. rewrite H; reflexivity.
Qed.

(** No match of the regular expression starts inside a token without [=]. *)
Lemma span_isWord_token (token rest : str) :
  forallb (fun c => negb (Ascii.eqb c "="%char)) token = true ->
  tokenEnd rest = true ->
  match snd (span isWord (token ++ rest)) with
  | [] => True
  | c :: _ => Ascii.eqb c "="%char = false
  end.
Proof.
  intros Ht Hr. induction token as [|c token IH]; simpl.
  - destruct rest as [|w rest]; simpl; [exact I|].
    simpl in Hr. rewrite (isSpace_not_word w Hr); simpl.
    destruct (Ascii.eqb w "="%char) eqn:E; [|reflexivity].
    apply Ascii.eqb_eq in E; subst w; discriminate.
  - simpl in Ht; apply andb_true_iff in Ht as [Hc Ht].
    destruct (isWord c).
    + destruct (span isWord (token ++ rest)); simpl in *; exact (IH Ht).
    + simpl. apply negb_true_iff; exact Hc.
Qed.

Lemma matchEnvVar_token (token rest : str) :
  forallb (fun c => negb (Ascii.eqb c "="%char)) token = true ->
  tokenEnd rest = true ->
  matchEnvVar (token ++ rest) = None.
Proof.
  intros Ht Hr. pose proof (span_isWord_token token rest Ht Hr) as H.
  unfold matchEnvVar. destruct (span isWord (token ++ rest)) as [key r1].
  simpl in H. destruct key; [reflexivity|].
  destruct r1 as [|c r2]; [reflexivity|]. rewrite H; reflexivity.
Qed.

Lemma removeEnvVars_token (token rest : str) :
  forallb (fun c => negb (Ascii.eqb c "="%char)) token = true ->
  tokenEnd rest = true ->
  removeEnvVars (token ++ rest) 0 = token ++ removeEnvVars rest 0.
Proof.
  intros Ht Hr. induction token as [|c token IH]; [reflexivity|].
  pose proof (matchEnvVar_token (c :: token) rest Ht Hr) as M.
  simpl in Ht; apply andb_true_iff in Ht as [_ Ht].
  change ((c :: token) ++ rest) with (c :: token ++ rest) in *.
  cbn [removeEnvVars]. rewrite M. simpl. f_equal. exact (IH Ht).
Qed.

Lemma tokenEnd_removeEnvVars (rest : str) :
  tokenEnd rest = true -> tokenEnd (removeEnvVars rest 0) = true.
Proof.
  destruct rest as [|w rest]; [reflexivity|]. simpl tokenEnd. intros H.
  cbn [removeEnvVars]. rewrite (matchEnvVar_space w rest H). exact H.
Qed.

Lemma trimEnd_token (token rest : str) :
  forallb (fun c => negb (isSpace c)) token = true ->
  trimEnd (token ++ rest) = token ++ trimEnd rest.
Proof.
  induction token as [|c token IH]; [reflexivity|].
  simpl; intros H; apply andb_true_iff in H as [Hc H].
  rewrite trimEnd_cons, (IH H). apply negb_true_iff in Hc; rewrite Hc.
  destruct (token ++ trimEnd rest); reflexivity.
Qed.

Lemma tokenEnd_trimEnd (rest : str) :
  tokenEnd rest = true -> tokenEnd (trimEnd rest) = true.
Proof.
  destruct rest as [|w rest]; [reflexivity|]. simpl tokenEnd. intros H.
  rewrite trimEnd_cons. destruct (trimEnd rest); [rewrite H|]; simpl; auto.
Qed.

Lemma firstToken_token (token rest : str) :
  forallb (fun c => negb (isSpace c)) token = true ->
  tokenEnd rest = true ->
  firstToken (token ++ rest) = token.
Proof.
  intros Ht Hr. unfold firstToken. rewrite span_exact; [reflexivity|exact Ht|].
  destruct rest; simpl in *; [reflexivity|]. rewrite Hr; reflexivity.
Qed.

Lemma extractBaseCommand_token (c : ascii) (token rest : str) :
  forallb (fun c => negb (isSpace c)) (c :: token) = true ->
  forallb (fun c => negb (Ascii.eqb c "="%char)) (c :: token) = true ->
  tokenEnd rest = true ->
  extractBaseCommand ((c :: token) ++ rest)
  = if Ascii.eqb c "("%char || Ascii.eqb c "$"%char then None
    else Some (toLowerCase (c :: token)).
Proof.
  intros Hs He Hr. unfold extractBaseCommand.
  rewrite (removeEnvVars_token (c :: token) rest He Hr).
  unfold trim.
  assert (trimStart ((c :: token) ++ removeEnvVars rest 0)
          = (c :: token) ++ removeEnvVars rest 0) as ->.
  { simpl in Hs; apply andb_true_iff in Hs as [Hc _].
    apply negb_true_iff in Hc. simpl; rewrite Hc; reflexivity. }
  rewrite (trimEnd_token (c :: token) _ Hs).
  rewrite (firstToken_token (c :: token) _ Hs)
    by (apply tokenEnd_trimEnd, tokenEnd_removeEnvVars, Hr).
  reflexivity.
Qed.

(** What [extractBaseCommand] answers when the text left by the regular
    expression starts with a token. *)
Lemma extractBaseCommand_first (commandStr : str) (c : ascii)
    (token rest : str) :
  removeEnvVars commandStr 0 = (c :: token) ++ rest ->
  forallb (fun c => negb (isSpace c)) (c :: token) = true ->
  tokenEnd rest = true ->
  extractBaseCommand commandStr
  = if Ascii.eqb c "("%char || Ascii.eqb c "$"%char then None
    else Some (toLowerCase (c :: token)).
Proof.
  intros Hr Hs He. unfold extractBaseCommand. rewrite Hr. unfold trim.
  assert (trimStart ((c :: token) ++ rest) = (c :: token) ++ rest) as ->.
  { simpl in Hs; apply andb_true_iff in Hs as [Hc _].
    apply negb_true_iff in Hc. simpl; rewrite Hc; reflexivity. }
  rewrite (trimEnd_token (c :: token) _ Hs).
  rewrite (firstToken_token (c :: token) _ Hs)
    by (apply tokenEnd_trimEnd, He).
  reflexivity.
Qed.

Lemma wordEnd_tail (c : ascii) (s : str) :
  wordEnd (c :: s) = true -> wordEnd s = true.
Proof. destruct s; [reflexivity|exact (fun H => H)]. Qed.

(** No match of the regular expression starts in a text without [=] that
    no word runs out of, whatever follows the text. *)
Lemma span_isWord_before (c : ascii) (pre s : str) :
  noEquals (c :: pre) = true ->
  wordEnd (c :: pre) = true ->
  match snd (span isWord ((c :: pre) ++ s)) with
  | [] => False
  | d :: _ => Ascii.eqb d "="%char = false
  end.
Proof.
  revert c. induction pre as [|d pre IH]; intros c He Hw.
  - simpl in Hw. apply negb_true_iff in Hw. simpl. rewrite Hw. simpl.
    simpl in He. apply andb_true_iff in He as [He _].
    apply negb_true_iff; exact He.
  - unfold noEquals in He. cbn [forallb] in He.
    apply andb_true_iff in He as [Hc He].
    change (wordEnd (c :: d :: pre)) with (wordEnd (d :: pre)) in Hw.
    change ((c :: d :: pre) ++ s) with (c :: (d :: pre) ++ s).
    cbn [span]. destruct (isWord c).
    + specialize (IH d He Hw).
      destruct (span isWord ((d :: pre) ++ s)); exact IH.
    + simpl. apply negb_true_iff; exact Hc.
Qed.

Lemma matchEnvVar_before (c : ascii) (pre s : str) :
  noEquals (c :: pre) = true ->
  wordEnd (c :: pre) = true ->
  matchEnvVar ((c :: pre) ++ s) = None.
Proof.
  intros He Hw. pose proof (span_isWord_before c pre s He Hw) as H.
  unfold matchEnvVar. destruct (span isWord ((c :: pre) ++ s)) as [key r1].
  simpl in H. destruct key; [reflexivity|].
  destruct r1 as [|d r2]; [reflexivity|]. rewrite H; reflexivity.
Qed.

Lemma removeEnvVars_before (pre s : str) :
  noEquals pre = true ->
  wordEnd pre = true ->
  removeEnvVars (pre ++ s) 0 = pre ++ removeEnvVars s 0.
Proof.
  induction pre as [|c pre IH]; intros He Hw; [reflexivity|].
  pose proof (matchEnvVar_before c pre s He Hw) as M.
  change ((c :: pre) ++ s) with (c :: pre ++ s) in *.
  cbn [removeEnvVars]. rewrite M. cbn [app]. f_equal.
  apply IH; [|exact (wordEnd_tail c pre Hw)].
  unfold noEquals in He. cbn [forallb] in He.
  apply andb_true_iff in He as [_ He]. exact He.
Qed.

Lemma removeEnvVars_noEquals (s : str) :
  noEquals s = true -> removeEnvVars s 0 = s.
Proof.
  intros He. rewrite <- (app_nil_r s) at 1.
  rewrite (removeEnvVars_token s [] He eq_refl). apply app_nil_r.
Qed.

Lemma noSpaceStart_trimStart (s : str) :
  noSpaceStart s = true -> trimStart s = s.
Proof.
  destruct s as [|c s]; [reflexivity|]. simpl. intros H.
  apply negb_true_iff in H. rewrite H. reflexivity.
Qed.

Lemma noSpaceStart_app (a b : str) :
  noSpaceStart a = true -> a <> [] -> noSpaceStart (a ++ b) = true.
Proof. destruct a; [intros _ H; contradiction H; reflexivity|auto]. Qed.

Lemma isAssignmentAfter_parts (a : Assignment) :
  isAssignmentAfter a = true ->
  noEquals (a_before a) = true /\ wordEnd (a_before a) = true
  /\ noSpaceStart (a_before a) = true
  /\ exists k key v value s spaces,
      a_key a = k :: key /\ a_value a = v :: value
      /\ a_spaces a = s :: spaces
      /\ forallb isWord (k :: key) = true
      /\ forallb (fun c => negb (isSpace c)) (v :: value) = true
      /\ forallb isSpace (s :: spaces) = true.
Proof.
  unfold isAssignmentAfter. intros H.
  repeat (apply andb_true_iff in H as [H ?]).
  repeat (split; [assumption|]).
  destruct (a_key a) as [|k key]; [discriminate|].
  destruct (a_value a) as [|v value]; [discriminate|].
  destruct (a_spaces a) as [|s spaces]; [discriminate|].
  exists k, key, v, value, s, spaces. repeat split; assumption.
Qed.

Lemma noSpaceStart_withAssignments (l : list Assignment) (tail : str) :
  forallb isAssignmentAfter l = true ->
  noSpaceStart tail = true ->
  noSpaceStart (withAssignments l tail) = true.
Proof.
  destruct l as [|a l]; [intros _ H; exact H|].
  cbn [forallb withAssignments]. intros H _.
  apply andb_true_iff in H as [Ha _].
  destruct (isAssignmentAfter_parts a Ha)
    as (_ & _ & Hs & k & key & v & value & s & spaces & -> & _ & _ & Hk & _).
  destruct (a_before a) as [|c pre]; [|exact Hs].
  cbn [app noSpaceStart]. cbn [forallb] in Hk.
  apply andb_true_iff in Hk as [Hk _].
  destruct (isSpace k) eqn:E; [|reflexivity].
  rewrite (isSpace_not_word k E) in Hk. discriminate.
Qed.

(** Every assignment of a command line goes, however many there are. *)
Lemma removeEnvVars_withAssignments (l : list Assignment) (tail : str) :
  forallb isAssignmentAfter l = true ->
  noEquals tail = true ->
  noSpaceStart tail = true ->
  removeEnvVars (withAssignments l tail) 0 = withoutAssignments l tail.
Proof.
  intros Hl He Hs. induction l as [|a l IH].
  - exact (removeEnvVars_noEquals tail He).
  - cbn [forallb] in Hl. apply andb_true_iff in Hl as [Ha Hl].
    cbn [withAssignments withoutAssignments].
    destruct (isAssignmentAfter_parts a Ha)
      as (Hb & Hw & _ & k & key & v & value & s & spaces
          & -> & -> & -> & Hk & Hv & Hsp).
    rewrite (removeEnvVars_before _ _ Hb Hw). f_equal.
    rewrite (removeEnvVars_assignment k v s key value spaces _ Hk Hv Hsp).
    rewrite (noSpaceStart_trimStart _
               (noSpaceStart_withAssignments l tail Hl Hs)).
    exact (IH Hl).
Qed.

(** C8, as the code has it.  The regular expression is applied everywhere in
    the segment, not to leading tokens only.  Wherever an assignment stands
    after a text without [=] that no word runs out of (nothing, earlier
    arguments, the first part of a token), it is removed together with the
    white space after it, and the search goes on in what follows; so every
    assignment of a line goes, however many there are, and a text without
    [=] stays as it is.  For the command this means: leading assignments
    are stripped, a segment that consists of an assignment yields no
    command, a first token without [=] is the command, in lower case,
    unless it starts with a parenthesis or a dollar sign, and a first token
    with an assignment inside is glued to the token after the assignment. *)
Theorem extractBaseCommand_removes_assignments :
  (forall (pre : str) (k v s : ascii) (key value spaces rest : str),
      noEquals pre = true ->
      wordEnd pre = true ->
      forallb isWord (k :: key) = true ->
      forallb (fun c => negb (isSpace c)) (v :: value) = true ->
      forallb isSpace (s :: spaces) = true ->
      removeEnvVars
        (pre ++ (k :: key) ++ "=" ++ (v :: value) ++ (s :: spaces) ++ rest) 0
      = pre ++ removeEnvVars (trimStart rest) 0)
  /\ (forall (pre : str) (k v : ascii) (key value : str),
         noEquals pre = true ->
         wordEnd pre = true ->
         forallb isWord (k :: key) = true ->
         forallb (fun c => negb (isSpace c)) (v :: value) = true ->
         removeEnvVars (pre ++ (k :: key) ++ "=" ++ (v :: value)) 0 = pre)
  /\ (forall (l : list Assignment) (tail : str),
         forallb isAssignmentAfter l = true ->
         noEquals tail = true ->
         noSpaceStart tail = true ->
         removeEnvVars (withAssignments l tail) 0 = withoutAssignments l tail)
  /\ (forall (k v s : ascii) (key value spaces rest : str),
         forallb isWord (k :: key) = true ->
         forallb (fun c => negb (isSpace c)) (v :: value) = true ->
         forallb isSpace (s :: spaces) = true ->
         extractBaseCommand
           ((k :: key) ++ "=" ++ (v :: value) ++ (s :: spaces) ++ rest)
         = extractBaseCommand rest)
  /\ (forall (k v : ascii) (key value : str),
         forallb isWord (k :: key) = true ->
         forallb (fun c => negb (isSpace c)) (v :: value) = true ->
         extractBaseCommand ((k :: key) ++ "=" ++ (v :: value)) = None)
  /\ (forall (c : ascii) (token rest : str),
         forallb (fun c => negb (isSpace c)) (c :: token) = true ->
         forallb (fun c => negb (Ascii.eqb c "="%char)) (c :: token) = true ->
         tokenEnd rest = true ->
         extractBaseCommand ((c :: token) ++ rest)
         = if Ascii.eqb c "("%char || Ascii.eqb c "$"%char then None
           else Some (toLowerCase (c :: token)))
  /\ (forall (c d k v s : ascii) (head key value spaces token rest : str),
         forallb (fun c => negb (isSpace c)) (c :: head) = true ->
         noEquals (c :: head) = true ->
         wordEnd (c :: head) = true ->
         forallb isWord (k :: key) = true ->
         forallb (fun c => negb (isSpace c)) (v :: value) = true ->
         forallb isSpace (s :: spaces) = true ->
         forallb (fun c => negb (isSpace c)) (d :: token) = true ->
         noEquals (d :: token) = true ->
         tokenEnd rest = true ->
         extractBaseCommand
           ((c :: head) ++ (k :: key) ++ "=" ++ (v :: value) ++ (s :: spaces)
            ++ (d :: token) ++ rest)
         = if Ascii.eqb c "("%char || Ascii.eqb c "$"%char then None
           else Some (toLowerCase ((c :: head) ++ (d :: token))))
  /\ extractBaseCommand "ls FOO=1 -la" = Some "ls"
  /\ removeEnvVars "ls FOO=1 -la" 0 = "ls -la"
  /\ extractBaseCommand "a.b=c ls" = Some "a.ls"
  /\ removeEnvVars "a.b=c x.d=e" 0 = "a.x."
  /\ (forall n, extractCommands (S n) "FOO=1 BAR=2 ls -la" = Some ["ls"]).
Proof.
  split.
  { intros pre k v s key value spaces rest He Hw Hk Hv Hs.
    rewrite (removeEnvVars_before _ _ He Hw). f_equal.
    exact (removeEnvVars_assignment k v s key value spaces rest Hk Hv Hs). }
  split.
  { intros pre k v key value He Hw Hk Hv.
    rewrite (removeEnvVars_before _ _ He Hw).
    rewrite (removeEnvVars_assignment_alone k v key value Hk Hv).
    apply app_nil_r. }
  split; [exact removeEnvVars_withAssignments|].
  split.
  { intros k v s key value spaces rest Hk Hv Hs.
    apply extractBaseCommand_ext.
    rewrite (removeEnvVars_assignment k v s key value spaces rest Hk Hv Hs).
    symmetry; apply removeEnvVars_spaces. }
  split.
  { intros k v key value Hk Hv. unfold extractBaseCommand.
    rewrite (removeEnvVars_assignment_alone k v key value Hk Hv).
    reflexivity. }
  split; [exact extractBaseCommand_token|].
  split.
  { intros c d k v s head key value spaces token rest
           Hh He Hw Hk Hv Hs Ht Hte Hr.
    assert (R : removeEnvVars
                  ((c :: head) ++ (k :: key) ++ "=" ++ (v :: value)
                   ++ (s :: spaces) ++ (d :: token) ++ rest) 0
                = (c :: head ++ d :: token) ++ removeEnvVars rest 0).
    { rewrite (removeEnvVars_before _ _ He Hw).
      rewrite (removeEnvVars_assignment k v s key value spaces _ Hk Hv Hs).
      rewrite noSpaceStart_trimStart.
      2:{ cbn [forallb] in Ht. apply andb_true_iff in Ht as [Ht _].
          exact Ht. }
      rewrite (removeEnvVars_token (d :: token) rest Hte Hr).
      cbn [app]. rewrite <- app_assoc. reflexivity. }
    apply (extractBaseCommand_first _ c (head ++ d :: token) _ R).
    - change (c :: head ++ d :: token) with ((c :: head) ++ d :: token).
      rewrite forallb_app, Hh, Ht. reflexivity.
    - apply tokenEnd_removeEnvVars, Hr. }
  repeat split; reflexivity.
Qed.

Lemma extractBaseCommand_removes_assignments_witness :
  removeEnvVars "ls FOO=1  -la BAR=2 x" 0 = "ls " ++ removeEnvVars "-la BAR=2 x" 0
  /\ removeEnvVars "ls -la x.d=e" 0 = "ls -la x."
  /\ removeEnvVars "ls FOO=1 -la x.d=e z" 0 = "ls -la x.z"
  /\ extractBaseCommand "FOO=1 BAR=2 ls -la" = extractBaseCommand "BAR=2 ls -la"
  /\ extractBaseCommand "FOO=1" = None
  /\ extractBaseCommand "ls -la" = Some "ls"
  /\ extractBaseCommand "a.b=c RM -rf" = Some "a.rm".
Proof.
  destruct extractBaseCommand_removes_assignments
    as (H1 & H2 & H3 & H4 & H5 & H6 & H7 & _).
  split; [|split; [|split; [|split; [|split; [|split]]]]].
  - apply (H1 "ls " "F"%char "1"%char " "%char "OO" [] " " "-la BAR=2 x");
      reflexivity.
  - apply (H2 "ls -la x." "d"%char "e"%char [] []); reflexivity.
  - apply (H3 [mkAssignment "ls " "FOO" "1" " ";
               mkAssignment "-la x." "d" "e" " "] "z"); reflexivity.
  - apply (H4 "F"%char "1"%char " "%char "OO" [] [] "BAR=2 ls -la");
      reflexivity.
  - apply (H5 "F"%char "1"%char "OO" []); reflexivity.
  - apply (H6 "l"%char "s" " -la"); reflexivity.
  - apply (H7 "a"%char "R"%char "b"%char "c"%char " "%char "." [] [] []
             "M" " -rf"); reflexivity.
Defined.

(** C8, as the claim has it: only leading assignment tokens are stripped.
    In [a.b=c ls] no leading token is an assignment, so the reading keeps
    the first token [a.b=c]; the code removes [b=c ] from inside it and
    answers [a.ls]. *)
Lemma extractBaseCommand_strips_inside_token :
  isAssignment "a.b=c" = false
  /\ extractBaseCommand_leadingOnly "a.b=c ls" = Some "a.b=c"
  /\ extractBaseCommand "a.b=c ls" = Some "a.ls"
  /\ extractCommands 1 "a.b=c ls" = Some ["a.ls"].
Proof. repeat split; reflexivity. Qed.

(** ** [extractCommands]: the scanner *)

Lemma scan_skip (self : str -> option (list str)) (s : str) (k : nat)
    (st : ScanState) :
  scan self s k st = scan self (skipn k s) 0 st.
Proof.
  revert k; induction s as [|c s IH]; intros [|k]; try reflexivity.
  simpl skipn. rewrite <- IH. reflexivity.
Qed.

Lemma commands_pushBaseCommand (iq : bool) (q cur : str) (e : bool)
    (cmds : list str) :
  commands (pushBaseCommand (mkScan iq q cur e cmds))
  = cmds ++ segmentCommands cur.
Proof.
  unfold segmentCommands, pushBaseCommand; simpl.
  destruct (trim cur); simpl; [rewrite app_nil_r; reflexivity|].
  destruct (extractBaseCommand _) as [[|]|]; simpl;
    rewrite ?app_nil_r; reflexivity.
Qed.

Lemma closeSegment_eq (iq : bool) (q cur : str) (e : bool) (cmds : list str) :
  closeSegment (mkScan iq q cur e cmds)
  = mkScan iq q [] e (cmds ++ segmentCommands cur).
Proof.
  unfold closeSegment. rewrite commands_pushBaseCommand.
  unfold pushBaseCommand; simpl.
  destruct (trim cur); simpl; [reflexivity|].
  destruct (extractBaseCommand _) as [[|]|]; reflexivity.
Qed.

Ltac plain_cases H :=
  unfold isPlain in H; apply negb_true_iff in H;
  repeat (apply orb_false_iff in H; destruct H as [H ?]).

Lemma find_separator_none (c : ascii) (tl : str) :
  Ascii.eqb c ";"%char = false -> Ascii.eqb c "&"%char = false ->
  Ascii.eqb c "|"%char = false ->
  find (fun separator => startsWith separator (c :: tl)) separators = None.
Proof.
  intros H1 H2 H3. unfold separators. cbn [find startsWith].
  rewrite !(Ascii.eqb_sym _ c), H1, H2, H3. reflexivity.
Qed.

Lemma scanStep_plain (self : str -> option (list str)) (c : ascii) (tl : str)
    (q cur : str) (cmds : list str) :
  isPlain c = true ->
  scanStep self c tl (mkScan false q cur false cmds)
  = Some (mkScan false q (cur ++ [c]) false cmds, 0).
Proof.
  intros H. plain_cases H.
  unfold scanStep. rewrite find_separator_none by assumption.
  cbn [escaped inQuote quoteChar].
  repeat match goal with E : Ascii.eqb c _ = false |- _ => rewrite E; clear E end.
  cbn [negb andb orb]. rewrite andb_false_r. reflexivity.
Qed.

Lemma scan_plain (self : str -> option (list str)) (a rest : str)
    (q cur : str) (cmds : list str) :
  forallb isPlain a = true ->
  scan self (a ++ rest) 0 (mkScan false q cur false cmds)
  = scan self rest 0 (mkScan false q (cur ++ a) false cmds).
Proof.
  revert cur; induction a as [|c a IH]; intros cur H; simpl.
  - rewrite app_nil_r; reflexivity.
  - simpl in H; apply andb_true_iff in H as [Hc H].
    rewrite (scanStep_plain self c (a ++ rest) q cur cmds Hc).
    rewrite (IH _ H), <- app_assoc; reflexivity.
Qed.

Ltac scan_outside :=
  cbn [app scan]; unfold scanStep; cbn [escaped inQuote quoteChar];
  rewrite andb_false_r.

Lemma scan_semicolon (self : str -> option (list str)) (rest q cur : str)
    (cmds : list str) :
  scan self (";" ++ rest) 0 (mkScan false q cur false cmds)
  = scan self rest 0 (closeSegment (mkScan false q cur false cmds)).
Proof. scan_outside. reflexivity. Qed.

Lemma scan_and_and (self : str -> option (list str)) (rest q cur : str)
    (cmds : list str) :
  scan self ("&&" ++ rest) 0 (mkScan false q cur false cmds)
  = scan self rest 0 (closeSegment (mkScan false q cur false cmds)).
Proof. scan_outside. reflexivity. Qed.

Lemma scan_or_or (self : str -> option (list str)) (rest q cur : str)
    (cmds : list str) :
  scan self ("||" ++ rest) 0 (mkScan false q cur false cmds)
  = scan self rest 0 (closeSegment (mkScan false q cur false cmds)).
Proof. scan_outside. reflexivity. Qed.

Lemma scan_pipe (self : str -> option (list str)) (rest q cur : str)
    (cmds : list str) :
  scan self ("|" ++ rest) 0 (mkScan false q cur false cmds)
  = scan self (if startsWith "|" rest then skipn 1 rest else rest) 0
         (closeSegment (mkScan false q cur false cmds)).
Proof.
  scan_outside. destruct rest as [|c rest]; [reflexivity|].
  destruct (Ascii.eqb "|" c) eqn:E.
  - apply Ascii.eqb_eq in E; subst c. reflexivity.
  - destruct c as [[] [] [] [] [] [] [] []]; try discriminate E; reflexivity.
Qed.

Lemma scan_ampersand (self : str -> option (list str)) (rest q cur : str)
    (cmds : list str) :
  scan self ("&" ++ rest) 0 (mkScan false q cur false cmds)
  = scan self (if startsWith "&" rest then skipn 1 rest else rest) 0
         (closeSegment (mkScan false q cur false cmds)).
Proof.
  scan_outside. destruct rest as [|c rest]; [reflexivity|].
  destruct (Ascii.eqb "&" c) eqn:E.
  - apply Ascii.eqb_eq in E; subst c. reflexivity.
  - destruct c as [[] [] [] [] [] [] [] []]; try discriminate E; reflexivity.
Qed.

Lemma scanStep_inside_quotes (self : str -> option (list str))
    (c qc : ascii) (tl cur : str) (cmds : list str) :
  Ascii.eqb c qc = false -> Ascii.eqb c "\"%char = false ->
  scanStep self c tl (mkScan true [qc] cur false cmds)
  = Some (mkScan true [qc] (cur ++ [c]) false cmds, 0).
Proof.
  intros H1 H2. unfold scanStep.
  cbn [escaped inQuote quoteChar str_eqb].
  rewrite H1, H2. cbn [negb andb orb]. rewrite andb_false_r. reflexivity.
Qed.

Lemma scan_inside_quotes (self : str -> option (list str))
    (qc : ascii) (body rest cur : str) (cmds : list str) :
  isQuoted qc body = true ->
  scan self (body ++ rest) 0 (mkScan true [qc] cur false cmds)
  = scan self rest 0 (mkScan true [qc] (cur ++ body) false cmds).
Proof.
  revert cur; induction body as [|c body IH]; intros cur H; simpl.
  - rewrite app_nil_r; reflexivity.
  - simpl in H. apply andb_true_iff in H as [Hc H].
    apply andb_true_iff in Hc as [H1 H2].
    apply negb_true_iff in H1, H2.
    rewrite (scanStep_inside_quotes self c qc (body ++ rest) cur cmds H1 H2).
    rewrite (IH _ H), <- app_assoc; reflexivity.
Qed.

(** A quoted region goes into the current segment as it is. *)
Lemma scan_quoted (self : str -> option (list str))
    (qc : ascii) (body rest q cur : str) (cmds : list str) :
  isQuote qc = true -> isQuoted qc body = true ->
  scan self (qc :: body ++ qc :: rest) 0 (mkScan false q cur false cmds)
  = scan self rest 0 (mkScan false [] (cur ++ qc :: body ++ [qc]) false cmds).
Proof.
  intros Hq Hb.
  assert (Hbs : Ascii.eqb qc "\"%char = false).
  { unfold isQuote in Hq. apply orb_true_iff in Hq as [E|E];
      apply Ascii.eqb_eq in E; subst qc; reflexivity. }
  cbn [scan].
  assert (scanStep self qc (body ++ qc :: rest) (mkScan false q cur false cmds)
          = Some (mkScan true [qc] (cur ++ [qc]) false cmds, 0)) as ->.
  { unfold scanStep. cbn [escaped inQuote quoteChar].
    rewrite Hbs. unfold isQuote in Hq. rewrite Hq. reflexivity. }
  rewrite (scan_inside_quotes self qc body (qc :: rest) _ cmds Hb).
  cbn [scan].
  assert (scanStep self qc rest (mkScan true [qc] ((cur ++ [qc]) ++ body) false cmds)
          = Some (mkScan false [] (((cur ++ [qc]) ++ body) ++ [qc]) false cmds, 0))
    as ->.
  { unfold scanStep. cbn [escaped inQuote quoteChar str_eqb].
    rewrite Hbs, Ascii.eqb_refl. cbn [negb andb orb].
    rewrite andb_false_r. reflexivity. }
  repeat rewrite <- app_assoc. reflexivity.
Qed.




(** *** The call stack

    Only a subshell makes [extractCommands] call itself.  Without an
    opening parenthesis the result is the same for every stack; with a
    parenthesis as the last character the content is the parenthesis
    itself ([substring] swaps its arguments), the calls nest until the
    stack is used up, and the innermost [catch] answers with the coarse
    base command. *)

Lemma scanStep_no_paren (self self' : str -> option (list str)) (c : ascii)
    (tl : str) (st : ScanState) :
  Ascii.eqb c "("%char = false ->
  scanStep self c tl st = scanStep self' c tl st.
Proof. intros H. unfold scanStep. rewrite H. reflexivity. Qed.

Lemma scan_no_paren (self self' : str -> option (list str)) (s : str)
    (k : nat) (st : ScanState) :
  forallb (fun c => negb (Ascii.eqb c "("%char)) s = true ->
  scan self s k st = scan self' s k st.
Proof.
  revert k st; induction s as [|c s IH]; intros k st H; [reflexivity|].
  simpl in H; apply andb_true_iff in H as [Hc H].
  apply negb_true_iff in Hc. destruct k as [|k]; simpl; [|apply (IH _ _ H)].
  rewrite (scanStep_no_paren self self' c s st Hc).
  destruct (scanStep self' c s st) as [[st' k']|]; [apply (IH _ _ H)|].
  reflexivity.
Qed.

Lemma extractCommands_stack_irrelevant (n : nat) (s : str) :
  forallb (fun c => negb (Ascii.eqb c "("%char)) (trim s) = true ->
  extractCommands (S n) s = extractCommands 1 s.
Proof.
  intros H. cbn [extractCommands].
  rewrite (scan_no_paren (extractCommands n) (extractCommands 0) _ 0 _ H).
  reflexivity.
Qed.

Lemma extractCommands_last_parenthesis (n : nat) :
  extractCommands (S n) "(" = Some ["("].
Proof.
  induction n as [|n IH]; [reflexivity|].
  change (extractCommands (S (S n)) "(")
    with (match scan (extractCommands (S n)) "(" 0 initialScan with
          | Some st => Some (StringSet.of_list (commands (pushBaseCommand st)))
          | None => Some [getBaseCommand "("]
          end).
  cbn [scan]. unfold scanStep, initialScan.
  cbn [escaped inQuote quoteChar andb orb negb Ascii.eqb Bool.eqb str_eqb
       parenScan length Nat.leb subshellContent commands currentCmd].
  rewrite IH. reflexivity.
Qed.

Lemma scan_end (self : str -> option (list str)) (a q cur : str)
    (cmds : list str) :
  forallb isPlain a = true ->
  scan self a 0 (mkScan false q cur false cmds)
  = Some (mkScan false q (cur ++ a) false cmds).
Proof.
  intros H. rewrite <- (app_nil_r a) at 1.
  rewrite (scan_plain self a [] q cur cmds H). reflexivity.
Qed.

Lemma plain_not_separator (b : str) (c : ascii) :
  forallb isPlain b = true -> isPlain c = false ->
  startsWith [c] b = false.
Proof.
  destruct b as [|x b]; [reflexivity|]. simpl.
  intros H Hc. apply andb_true_iff in H as [Hx _].
  destruct (Ascii.eqb c x) eqn:E; [|reflexivity].
  apply Ascii.eqb_eq in E; subst x. congruence.
Qed.

Lemma scan_two_segments (self : str -> option (list str)) (a sep b : str) :
  forallb isPlain a = true -> forallb isPlain b = true ->
  In sep separators ->
  scan self (a ++ sep ++ b) 0 initialScan
  = Some (mkScan false [] b false (segmentCommands a)).
Proof.
  intros Ha Hb Hin. unfold initialScan.
  rewrite (scan_plain self a (sep ++ b) [] [] [] Ha). cbn [app].
  assert (Hclose : closeSegment (mkScan false [] a false [])
                   = mkScan false [] [] false (segmentCommands a)).
  { rewrite closeSegment_eq. reflexivity. }
  unfold separators in Hin. cbn [In] in Hin.
  destruct Hin as [<-|[<-|[<-|[<-|[<-|[]]]]]].
  - rewrite scan_semicolon, Hclose. apply (scan_end self b [] [] _ Hb).
  - rewrite scan_and_and, Hclose. apply (scan_end self b [] [] _ Hb).
  - rewrite scan_or_or, Hclose. apply (scan_end self b [] [] _ Hb).
  - rewrite scan_pipe, Hclose.
    rewrite (plain_not_separator b "|"%char Hb) by reflexivity.
    apply (scan_end self b [] [] _ Hb).
  - rewrite scan_ampersand, Hclose.
    rewrite (plain_not_separator b "&"%char Hb) by reflexivity.
    apply (scan_end self b [] [] _ Hb).
Qed.

(** C6.  Outside quotes every separator closes the current segment and the
    scan goes on after the whole separator: [&&] and [||] are taken in one
    step, and a single [&] or [|] only when the longer separator does not
    stand there.  A quoted region is copied into the segment whatever it
    contains.  So two plain segments around a separator give the commands
    of the one and of the other, and text with a quoted region is one
    segment. *)
Theorem extractCommands_separators_and_quotes :
  (forall self rest q cur cmds,
      let st := mkScan false q cur false cmds in
      scan self (";" ++ rest) 0 st = scan self rest 0 (closeSegment st)
      /\ scan self ("&&" ++ rest) 0 st = scan self rest 0 (closeSegment st)
      /\ scan self ("||" ++ rest) 0 st = scan self rest 0 (closeSegment st)
      /\ scan self ("|" ++ rest) 0 st
         = scan self (if startsWith "|" rest then skipn 1 rest else rest) 0
                (closeSegment st)
      /\ scan self ("&" ++ rest) 0 st
         = scan self (if startsWith "&" rest then skipn 1 rest else rest) 0
                (closeSegment st))
  /\ (forall self qc body rest q cur cmds,
         isQuote qc = true -> isQuoted qc body = true ->
         scan self (qc :: body ++ qc :: rest) 0 (mkScan false q cur false cmds)
         = scan self rest 0
             (mkScan false [] (cur ++ qc :: body ++ [qc]) false cmds))
  /\ (forall n s a sep b,
         trim s = a ++ sep ++ b ->
         forallb isPlain a = true -> forallb isPlain b = true ->
         In sep separators ->
         extractCommands (S n) s
         = Some (StringSet.of_list (segmentCommands a ++ segmentCommands b)))
  /\ (forall n s a qc body b,
         trim s = a ++ qc :: body ++ qc :: b ->
         forallb isPlain a = true -> forallb isPlain b = true ->
         isQuote qc = true -> isQuoted qc body = true ->
         extractCommands (S n) s
         = Some (StringSet.of_list
                   (segmentCommands (a ++ qc :: body ++ qc :: b))))
  /\ (forall n, extractCommands (S n) "a; b && c" = Some ["a"; "b"; "c"])
  /\ (forall n,
         extractCommands (S n)
           ("echo " ++ DQUOTE :: "a;b" ++ DQUOTE :: " | grep x")
         = Some ["echo"; "grep"]).
Proof.
  split.
  { intros self rest q cur cmds st. unfold st.
    repeat split;
      [ apply scan_semicolon | apply scan_and_and | apply scan_or_or
      | apply scan_pipe | apply scan_ampersand ]. }
  split; [exact scan_quoted|].
  split.
  { intros n s a sep b Hs Ha Hb Hin. cbn [extractCommands]. rewrite Hs.
    rewrite (scan_two_segments (extractCommands n) a sep b Ha Hb Hin).
    rewrite commands_pushBaseCommand. reflexivity. }
  split.
  { intros n s a qc body b Hs Ha Hb Hq Hbody. cbn [extractCommands].
    rewrite Hs. unfold initialScan.
    rewrite (scan_plain _ a _ [] [] [] Ha). cbn [app].
    rewrite (scan_quoted _ qc body b [] a [] Hq Hbody).
    rewrite (scan_end _ b [] _ [] Hb).
    rewrite commands_pushBaseCommand. cbn [app].
    repeat (rewrite <- app_assoc; cbn [app]). reflexivity. }
  split; intros n; reflexivity.
Qed.

Lemma extractCommands_separators_and_quotes_witness :
  extractCommands 1 "ls -la && pwd"
  = Some (StringSet.of_list (segmentCommands "ls -la " ++ segmentCommands " pwd"))
  /\ extractCommands 1 ("echo " ++ DQUOTE :: "a;b|c" ++ DQUOTE :: " x")
     = Some (StringSet.of_list
               (segmentCommands ("echo " ++ DQUOTE :: "a;b|c" ++ DQUOTE :: " x")))
  /\ scan (extractCommands 0) ("'&&' ; b") 0 initialScan
     = scan (extractCommands 0) " ; b" 0
         (mkScan false [] "'&&'" false []).
Proof.
  destruct extractCommands_separators_and_quotes as (_ & H2 & H3 & H4 & _).
  split; [|split].
  - apply (H3 0 "ls -la && pwd" "ls -la " "&&" " pwd");
      try reflexivity. right; left; reflexivity.
  - apply (H4 0 _ "echo " DQUOTE "a;b|c" " x"); reflexivity.
  - apply (H2 (extractCommands 0) "'"%char "&&" " ; b" [] [] []); reflexivity.
Defined.



(** ** [path.dirname] and the walk up the parents *)

Lemma dropWhile_length (p : ascii -> bool) (s : str) :
  length (path.dropWhile p s) <= length s.
Proof.
  induction s as [|c s IH]; simpl; [lia|].
  destruct (p c); simpl; lia.
Qed.

Lemma dropWhile_head (p : ascii -> bool) (s : str) :
  match path.dropWhile p s with
  | [] => True
  | c :: _ => p c = false
  end.
Proof.
  induction s as [|c s IH]; simpl; [exact I|].
  destruct (p c) eqn:E; [exact IH | exact E].
Qed.

Lemma dropWhile_strict (p : ascii -> bool) (c : ascii) (s : str) :
  p c = true -> length (path.dropWhile p (c :: s)) < length (c :: s).
Proof.
  intros H. simpl. rewrite H. pose proof (dropWhile_length p s). lia.
Qed.

(** [validateParentDirectories] goes on to [parentDir] only when that is a
    shorter path. *)
Lemma dirname_shorter (d : str) :
  let parentDir := path.dirname d in
  str_eqb parentDir d || str_eqb parentDir (path.dirname parentDir) = false ->
  length parentDir < length d.
Proof.
  destruct d as [|c0 t]; [discriminate|].
  unfold path.dirname.
  set (r1 := path.dropWhile path.isSlash (rev t)).
  set (upToEnd := path.dropWhile (fun c => negb (path.isSlash c)) r1).
  assert (Hlen : upToEnd <> [] -> length upToEnd < length t).
  { intros Hne. pose proof (dropWhile_length path.isSlash (rev t)) as L1.
    fold r1 in L1. rewrite length_rev in L1.
    pose proof (dropWhile_head path.isSlash (rev t)) as Hh. fold r1 in Hh.
    destruct r1 as [|x r1'] eqn:E1; [contradiction Hne; reflexivity|].
    assert (length upToEnd < length (x :: r1')).
    { apply dropWhile_strict. rewrite Hh; reflexivity. }
    lia. }
  destruct upToEnd as [|u us] eqn:Eu.
  - destruct (path.isSlash c0); cbv zeta; intros H;
      apply orb_false_iff in H as [_ H]; discriminate H.
  - cbv zeta. specialize (Hlen ltac:(discriminate)).
    destruct (path.isSlash c0 && (length (u :: us) =? 1)) eqn:Eroot.
    + intros _. apply andb_true_iff in Eroot as [_ E].
      apply Nat.eqb_eq in E. simpl in *. lia.
    + intros _. rewrite length_firstn. simpl in *. lia.
Qed.

Lemma validateParentDirectoriesFrom_fuel (env : Env) (fuel fuel' : nat)
    (d : str) :
  length d <= fuel -> length d <= fuel' ->
  validateParentDirectoriesFrom fuel env d
  = validateParentDirectoriesFrom fuel' env d.
Proof.
  revert fuel' d; induction fuel as [|fuel IH]; intros fuel' d H H'.
  - destruct fuel'; [reflexivity|]. simpl.
    destruct (str_eqb (path.dirname d) d
              || str_eqb (path.dirname d) (path.dirname (path.dirname d)))
      eqn:E; [reflexivity|].
    apply dirname_shorter in E. lia.
  - simpl.
    destruct (str_eqb (path.dirname d) d
              || str_eqb (path.dirname d) (path.dirname (path.dirname d)))
      eqn:E; [destruct fuel'; simpl; rewrite E; reflexivity|].
    pose proof (dirname_shorter d E) as L. cbv zeta in L.
    destruct fuel' as [|fuel']; [lia|]. simpl. rewrite E.
    rewrite (IH fuel' (path.dirname d)) by lia. reflexivity.
Qed.

(** The recursive equation of the source. *)
Lemma validateParentDirectories_unfold (env : Env) (directoryPath : str) :
  validateParentDirectories env directoryPath
  = let parentDir := path.dirname directoryPath in
    if str_eqb parentDir directoryPath
       || str_eqb parentDir (path.dirname parentDir)
    then Fulfilled 0 false
    else tryCatch
           (let* _ := realpath env parentDir in Fulfilled 0 true)
           (validateParentDirectories env parentDir).
Proof.
  unfold validateParentDirectories. cbv zeta.
  destruct (length directoryPath) as [|n] eqn:En; simpl.
  - destruct (str_eqb (path.dirname directoryPath) directoryPath
              || str_eqb (path.dirname directoryPath)
                   (path.dirname (path.dirname directoryPath))) eqn:E;
      [reflexivity|].
    apply dirname_shorter in E. lia.
  - destruct (str_eqb (path.dirname directoryPath) directoryPath
              || str_eqb (path.dirname directoryPath)
                   (path.dirname (path.dirname directoryPath))) eqn:E;
      [reflexivity|].
    pose proof (dirname_shorter directoryPath E) as L. cbv zeta in L.
    rewrite (validateParentDirectoriesFrom_fuel env n
               (length (path.dirname directoryPath))) by lia.
    reflexivity.
Qed.

Lemma delay_not_rejected {A} (t : N) (p : promise A) :
  (forall t', p <> Rejected t') -> forall t', delay t p <> Rejected t'.
Proof.
  intros H t'. destruct p; simpl; try discriminate.
  exfalso; exact (H ms eq_refl).
Qed.

Lemma validateParentDirectoriesFrom_not_rejected (env : Env) (fuel : nat)
    (d : str) (t : N) :
  validateParentDirectoriesFrom fuel env d <> Rejected t.
Proof.
  revert d t; induction fuel as [|fuel IH]; intros d t; simpl.
  - destruct (_ || _); discriminate.
  - destruct (_ || _); [discriminate|].
    destruct (realpath env (path.dirname d)) as [t1 v|t1|]; simpl;
      try discriminate.
    apply delay_not_rejected. intros t'; apply IH.
Qed.

Lemma validateParentDirectoriesFrom_settles (env : Env) (fuel : nat)
    (d : str) :
  (forall q, realpath env q <> Pending) ->
  length d <= fuel ->
  exists t found, validateParentDirectoriesFrom fuel env d = Fulfilled t found.
Proof.
  intros Hfs. revert d; induction fuel as [|fuel IH]; intros d H; simpl.
  - destruct (_ || _) eqn:E; [eauto|].
    apply dirname_shorter in E. lia.
  - destruct (_ || _) eqn:E; [eauto|].
    pose proof (dirname_shorter d E) as L. cbv zeta in L.
    destruct (realpath env (path.dirname d)) as [t1 v|t1|] eqn:R; simpl.
    + eauto.
    + destruct (IH (path.dirname d)) as (t & found & ->); [lia|].
      simpl. eauto.
    + exfalso; exact (Hfs _ R).
Qed.

(** ** [validatePath] *)

Lemma validationOperation_not_rejected (env : Env) (requestedPath : str)
    (t : N) :
  validationOperation env requestedPath <> Rejected t.
Proof.
  unfold validationOperation.
  destruct (negb (isAllowed env (absolutePath env requestedPath)));
    [discriminate|].
  set (absolute := absolutePath env requestedPath).
  assert (Hcatch : forall t',
             (let* found := validateParentDirectories env absolute in
              if found : bool then Fulfilled 0 absolute
              else Fulfilled 0 absolute) <> Rejected t').
  { intros t'. unfold validateParentDirectories.
    pose proof (validateParentDirectoriesFrom_not_rejected env
                  (length absolute) absolute) as H.
    destruct (validateParentDirectoriesFrom _ env absolute) as [t1 [|]|t1|];
      simpl; try discriminate.
    exfalso; exact (H t1 eq_refl). }
  destruct (stat env absolute) as [t1 []|t1|]; simpl; try discriminate.
  - destruct (realpath env absolute) as [t2 r|t2|]; simpl; try discriminate.
    apply delay_not_rejected; exact Hcatch.
  - apply delay_not_rejected; exact Hcatch.
Qed.

(** [validatePath] is [validationOperation] when that completes within the
    budget, and the time-out message at the end of the budget otherwise. *)
Lemma validatePath_eq (env : Env) (requestedPath : str) :
  validatePath env requestedPath
  = if completesWithin PATH_VALIDATION_TIMEOUT
         (validationOperation env requestedPath)
    then validationOperation env requestedPath
    else Fulfilled PATH_VALIDATION_TIMEOUT (timedOut requestedPath).
Proof.
  unfold validatePath.
  destruct (validationOperation env requestedPath) as [t r|t|]; simpl.
  - rewrite N.add_0_r.
    destruct (t <=? PATH_VALIDATION_TIMEOUT)%N; simpl;
      [rewrite N.add_0_r|]; reflexivity.
  - destruct (t <=? PATH_VALIDATION_TIMEOUT)%N; reflexivity.
  - reflexivity.
Qed.

Lemma isAllowed_false (env : Env) (absolute : str) :
  (forall dir, In dir (allowedDirectories env) ->
     normalizePath absolute <> normalizePath dir
     /\ startsWith (normalizePath dir ++ path.sep) (normalizePath absolute)
        = false) ->
  isAllowed env absolute = false.
Proof.
  intros H. unfold isAllowed.
  destruct (existsb _ _) eqn:E; [|reflexivity].
  apply existsb_exists in E as (dir & Hin & Hd).
  destruct (H dir Hin) as [Hne Hsw]. cbv zeta in Hd. rewrite Hsw in Hd.
  rewrite orb_false_r in Hd. apply str_eqb_eq in Hd. contradiction.
Qed.

(** C3.  A path whose normalized absolute form is no allowed directory and
    does not start with an allowed directory and the separator is denied:
    [validatePath] returns the access-denied message at once, which is an
    error for every caller. *)
Theorem validatePath_denies_outside (env : Env) (requestedPath : str)
    (Houtside :
       forall dir, In dir (allowedDirectories env) ->
         normalizePath (absolutePath env requestedPath) <> normalizePath dir
         /\ startsWith (normalizePath dir ++ path.sep)
                       (normalizePath (absolutePath env requestedPath))
            = false) :
  validatePath env requestedPath
  = Fulfilled 0 (accessDenied (absolutePath env requestedPath))
  /\ isError (accessDenied (absolutePath env requestedPath)) = true.
Proof.
  split; [|reflexivity].
  rewrite validatePath_eq. unfold validationOperation.
  rewrite (isAllowed_false env _ Houtside). reflexivity.
Qed.

Lemma validatePath_denies_outside_witness :
  validatePath sandboxEnv "/sandbox/../etc/passwd"
  = Fulfilled 0
      "__ERROR__: Access denied. Path is not within allowed directories: /etc/passwd"
  /\ isError (accessDenied (absolutePath sandboxEnv "/sandbox/../etc/passwd"))
     = true.
Proof.
  apply (validatePath_denies_outside sandboxEnv "/sandbox/../etc/passwd").
  intros dir [<-|[<-|[]]]; split; (discriminate || reflexivity).
Defined.

(** C4.  [validatePath] always fulfils its promise, with a string, at the
    latest when the budget of 10000 ms is over: a denial is the
    access-denied message, a time-out (the operation hangs, or takes longer
    than the budget) is the time-out message, and [validationOperation]
    itself never rejects.  Both messages are errors for the callers. *)
Theorem validatePath_never_raises (env : Env) (requestedPath : str) :
  PATH_VALIDATION_TIMEOUT = 10000%N
  /\ validatePath env requestedPath
     = (if completesWithin PATH_VALIDATION_TIMEOUT
             (validationOperation env requestedPath)
        then validationOperation env requestedPath
        else Fulfilled PATH_VALIDATION_TIMEOUT (timedOut requestedPath))
  /\ (forall t, validationOperation env requestedPath <> Rejected t)
  /\ (exists t s,
         validatePath env requestedPath = Fulfilled t s
         /\ (t <= PATH_VALIDATION_TIMEOUT)%N)
  /\ (if isAllowed env (absolutePath env requestedPath) then True
      else validatePath env requestedPath
           = Fulfilled 0 (accessDenied (absolutePath env requestedPath)))
  /\ isError (accessDenied (absolutePath env requestedPath)) = true
  /\ isError (timedOut requestedPath) = true.
Proof.
  split; [reflexivity|].
  split; [apply validatePath_eq|].
  split; [intros t; apply validationOperation_not_rejected|].
  split.
  { rewrite validatePath_eq.
    pose proof (validationOperation_not_rejected env requestedPath) as Hr.
    destruct (validationOperation env requestedPath) as [t r|t|]; simpl.
    - destruct (t <=? PATH_VALIDATION_TIMEOUT)%N eqn:E.
      + exists t, r. split; [reflexivity | apply N.leb_le; exact E].
      + exists PATH_VALIDATION_TIMEOUT, (timedOut requestedPath).
        split; [reflexivity | apply N.le_refl].
    - exfalso; exact (Hr t eq_refl).
    - exists PATH_VALIDATION_TIMEOUT, (timedOut requestedPath).
      split; [reflexivity | apply N.le_refl]. }
  split.
  { destruct (isAllowed env (absolutePath env requestedPath)) eqn:E;
      [exact I|].
    rewrite validatePath_eq. unfold validationOperation. rewrite E.
    reflexivity. }
  split; reflexivity.
Qed.

(** C1, as the code has it.  For a path that passes the containment check
    and exists, [validatePath] returns what [realpath] resolves it to,
    provided [stat] and [realpath] answer within the budget.  The
    containment check is made on the path before the resolution. *)
Theorem validatePath_existing (env : Env) (requestedPath realPath : str)
    (t1 t2 : N)
    (Hallowed : isAllowed env (absolutePath env requestedPath) = true)
    (Hstat : stat env (absolutePath env requestedPath) = Fulfilled t1 tt)
    (Hreal : realpath env (absolutePath env requestedPath)
             = Fulfilled t2 realPath)
    (Htime : (t1 + t2 <= PATH_VALIDATION_TIMEOUT)%N) :
  validatePath env requestedPath = Fulfilled (t1 + t2) realPath.
Proof.
  rewrite validatePath_eq. unfold validationOperation.
  rewrite Hallowed, Hstat, Hreal. simpl.
  apply N.leb_le in Htime. rewrite Htime. reflexivity.
Qed.

Lemma validatePath_existing_witness :
  validatePath sandboxEnv "/sandbox" = Fulfilled (1 + 1) "/sandbox".
Proof.
  apply (validatePath_existing sandboxEnv "/sandbox" "/sandbox" 1 1);
    try reflexivity.
  discriminate.
Defined.

(** C1, as the claim has it: the path returned for an existing path lies in
    an allowed directory.  [/sandbox/link] passes the containment check and
    exists; what is returned is the target of the link, which lies in no
    allowed directory. *)
Lemma validatePath_symlink_leaves_sandbox :
  isAllowed sandboxEnv (absolutePath sandboxEnv "/sandbox/link") = true
  /\ stat sandboxEnv (absolutePath sandboxEnv "/sandbox/link") = Fulfilled 1 tt
  /\ validatePath sandboxEnv "/sandbox/link" = Fulfilled 2 "/etc/passwd"
  /\ isError "/etc/passwd" = false
  /\ isAllowed sandboxEnv "/etc/passwd" = false.
Proof. repeat split; reflexivity. Qed.

(** C5, as the code has it.  For a path that passes the containment check
    and does not exist, the parents are visited from the nearest one
    upwards until one exists, and never the root.  When [realpath] answers
    every call the walk ends; whatever it finds, [validatePath] returns the
    absolute path as it was before any resolution if [stat] and the walk
    together took no longer than the budget, and the time-out message
    otherwise. *)
Theorem validatePath_missing (env : Env) (requestedPath : str) (t0 : N)
    (Hallowed : isAllowed env (absolutePath env requestedPath) = true)
    (Hstat : stat env (absolutePath env requestedPath) = Rejected t0)
    (Hfs : forall q, realpath env q <> Pending) :
  (forall directoryPath,
      validateParentDirectories env directoryPath
      = let parentDir := path.dirname directoryPath in
        if str_eqb parentDir directoryPath
           || str_eqb parentDir (path.dirname parentDir)
        then Fulfilled 0 false
        else tryCatch
               (let* _ := realpath env parentDir in Fulfilled 0 true)
               (validateParentDirectories env parentDir))
  /\ exists t1 found,
      validateParentDirectories env (absolutePath env requestedPath)
      = Fulfilled t1 found
      /\ validatePath env requestedPath
         = if (t0 + t1 <=? PATH_VALIDATION_TIMEOUT)%N
           then Fulfilled (t0 + t1) (absolutePath env requestedPath)
           else Fulfilled PATH_VALIDATION_TIMEOUT (timedOut requestedPath).
Proof.
  split; [intros d; apply validateParentDirectories_unfold|].
  destruct (validateParentDirectoriesFrom_settles env
              (length (absolutePath env requestedPath))
              (absolutePath env requestedPath) Hfs (le_n _))
    as (t1 & found & Hwalk).
  exists t1, found. split; [exact Hwalk|].
  rewrite validatePath_eq. unfold validationOperation.
  rewrite Hallowed, Hstat. simpl.
  unfold validateParentDirectories. rewrite Hwalk. simpl.
  destruct found; simpl; rewrite N.add_0_r;
    destruct (t0 + t1 <=? PATH_VALIDATION_TIMEOUT)%N; reflexivity.
Qed.

Lemma validatePath_missing_witness :
  validateParentDirectories sandboxEnv
    (absolutePath sandboxEnv "/sandbox/a/b/c") = Fulfilled 3 true
  /\ validatePath sandboxEnv "/sandbox/a/b/c" = Fulfilled 4 "/sandbox/a/b/c".
Proof.
  destruct (validatePath_missing sandboxEnv "/sandbox/a/b/c" 1)
    as (_ & t1 & found & Hwalk & Hpath).
  - reflexivity.
  - reflexivity.
  - intros q. simpl.
    destruct (str_eqb q "/sandbox/link"); [discriminate|].
    destruct (str_eqb q "/sandbox"); discriminate.
  - assert (E : validateParentDirectories sandboxEnv
                  (absolutePath sandboxEnv "/sandbox/a/b/c")
                = Fulfilled 3 true) by reflexivity.
    rewrite E in Hwalk. injection Hwalk as <- <-.
    split; [exact E|exact Hpath].
Defined.

(** C5, as the claim has it: every path that is allowed and missing comes
    back as it is, without error.  On the slow device [/sandbox/a/b/c] is
    allowed and missing; the walk asks for three parents, six seconds each,
    and [validatePath] answers with the time-out message after ten. *)
Lemma validatePath_missing_times_out :
  isAllowed slowEnv (absolutePath slowEnv "/sandbox/a/b/c") = true
  /\ stat slowEnv (absolutePath slowEnv "/sandbox/a/b/c") = Rejected 1
  /\ validateParentDirectories slowEnv
       (absolutePath slowEnv "/sandbox/a/b/c") = Fulfilled 18000 false
  /\ validatePath slowEnv "/sandbox/a/b/c"
     = Fulfilled 10000
         "__ERROR__: Path validation timed out after 10 seconds for: /sandbox/a/b/c"
  /\ isError
       "__ERROR__: Path validation timed out after 10 seconds for: /sandbox/a/b/c"
     = true.
Proof. repeat split; reflexivity. Qed.

Lemma validatePath_never_raises_witness :
  validatePath hangingEnv "/sandbox/x"
  = Fulfilled 10000
      "__ERROR__: Path validation timed out after 10 seconds for: /sandbox/x"
  /\ validatePath hangingEnv "/etc/passwd"
     = Fulfilled 0
         "__ERROR__: Access denied. Path is not within allowed directories: /etc/passwd".
Proof.
  split.
  - destruct (validatePath_never_raises hangingEnv "/sandbox/x")
      as (_ & H & _). exact H.
  - destruct (validatePath_never_raises hangingEnv "/etc/passwd")
      as (_ & _ & _ & _ & H & _). exact H.
Defined.

(* ================================================================= *)
(** * Further properties of the command guard *)

(** ** Normal form of a command name *)

Lemma lowerChar_idem (c : ascii) : lowerChar (lowerChar c) = lowerChar c.
Proof. each_char c. Qed.

Lemma lowerChar_blank (c : ascii) :
  Ascii.eqb (lowerChar c) " "%char = Ascii.eqb c " "%char.
Proof. each_char c. Qed.

Lemma toLowerCase_idem (s : str) : toLowerCase (toLowerCase s) = toLowerCase s.
Proof.
  unfold toLowerCase. rewrite map_map. apply map_ext, lowerChar_idem.
Qed.

Lemma trimStart_toLowerCase (s : str) :
  trimStart (toLowerCase s) = toLowerCase (trimStart s).
Proof.
  induction s as [|c s IH]; [reflexivity|]. simpl.
  rewrite isSpace_lowerChar. destruct (isSpace c); [exact IH | reflexivity].
Qed.

Lemma trimEnd_toLowerCase (s : str) :
  trimEnd (toLowerCase s) = toLowerCase (trimEnd s).
Proof.
  unfold trimEnd.
  change (rev (toLowerCase s)) with (rev (map lowerChar s)).
  rewrite <- map_rev.
  change (map lowerChar (rev s)) with (toLowerCase (rev s)).
  rewrite trimStart_toLowerCase. unfold toLowerCase. apply eq_sym, map_rev.
Qed.

Lemma trim_toLowerCase (s : str) : trim (toLowerCase s) = toLowerCase (trim s).
Proof.
  unfold trim. rewrite trimStart_toLowerCase. apply trimEnd_toLowerCase.
Qed.

Lemma trimStart_idem (s : str) : trimStart (trimStart s) = trimStart s.
Proof.
  induction s as [|c s IH]; [reflexivity|]. simpl.
  destruct (isSpace c) eqn:E; [exact IH|]. simpl; rewrite E; reflexivity.
Qed.

Lemma trimEnd_idem (s : str) : trimEnd (trimEnd s) = trimEnd s.
Proof.
  unfold trimEnd. rewrite rev_involutive, trimStart_idem. reflexivity.
Qed.

Lemma trimStart_trimEnd (s : str) :
  trimStart (trimEnd (trimStart s)) = trimEnd (trimStart s).
Proof.
  destruct (trimStart s) as [|c t] eqn:E; [reflexivity|].
  assert (Hc : isSpace c = false).
  { destruct s as [|x s]; [discriminate|].
    revert E. clear. revert x. induction s as [|y s IH]; intros x; simpl.
    - destruct (isSpace x) eqn:Ex; [discriminate|]. congruence.
    - destruct (isSpace x) eqn:Ex; [apply IH|]. congruence. }
  rewrite trimEnd_cons. rewrite Hc.
  destruct (trimEnd t); simpl; rewrite Hc; reflexivity.
Qed.

Lemma trim_idem (s : str) : trim (trim s) = trim s.
Proof.
  unfold trim. rewrite trimStart_trimEnd, trimEnd_idem. reflexivity.
Qed.

(** [toLowerCase().trim()] applied twice is the same as applied once. *)
Lemma normal_idem (s : str) :
  trim (toLowerCase (trim (toLowerCase s))) = trim (toLowerCase s).
Proof.
  rewrite (trim_toLowerCase (trim (toLowerCase s))).
  rewrite trim_idem, <- trim_toLowerCase, toLowerCase_idem. reflexivity.
Qed.

Lemma splitHead_toLowerCase (s : str) :
  splitHead " "%char (toLowerCase s) = toLowerCase (splitHead " "%char s).
Proof.
  induction s as [|c s IH]; [reflexivity|]. simpl.
  rewrite lowerChar_blank. destruct (Ascii.eqb c " "%char); [reflexivity|].
  simpl. f_equal. exact IH.
Qed.

Lemma forallb_trimStart (p : ascii -> bool) (s : str) :
  forallb p s = true -> forallb p (trimStart s) = true.
Proof.
  induction s as [|c s IH]; [reflexivity|]. simpl.
  intros H. destruct (isSpace c); [|exact H].
  apply andb_true_iff in H as [_ H]. exact (IH H).
Qed.

Lemma forallb_trimEnd (p : ascii -> bool) (s : str) :
  forallb p s = true -> forallb p (trimEnd s) = true.
Proof.
  intros H. unfold trimEnd. rewrite forallb_forall in *.
  intros x Hx. apply H. apply in_rev in Hx.
  assert (Hsub : forall l, forall y, In y (trimStart l) -> In y l).
  { induction l as [|c l IH]; simpl; [auto|].
    intros y. destruct (isSpace c); [auto | simpl; auto]. }
  apply Hsub in Hx. apply in_rev. exact Hx.
Qed.

Lemma forallb_trim (p : ascii -> bool) (s : str) :
  forallb p s = true -> forallb p (trim s) = true.
Proof. intros H. apply forallb_trimEnd, forallb_trimStart, H. Qed.

Lemma getBaseCommand_no_blank (command : str) :
  forallb (fun c => negb (Ascii.eqb c " "%char)) (getBaseCommand command) = true.
Proof.
  unfold getBaseCommand. apply forallb_trim.
  unfold toLowerCase. rewrite forallb_forall. intros x Hx.
  apply in_map_iff in Hx as (c & <- & Hc).
  rewrite lowerChar_blank.
  pose proof (splitHead_free " "%char command) as H.
  rewrite forallb_forall in H. exact (H c Hc).
Qed.

(** X1.  The gate does not look at the letter case of the command line. *)
Theorem validateCommand_case_insensitive (m : CommandManager) (command : str) :
  validateCommand m (toLowerCase command) = validateCommand m command.
Proof.
  unfold validateCommand, getBaseCommand.
  rewrite splitHead_toLowerCase, toLowerCase_idem. reflexivity.
Qed.

(** X2.  A command line that begins with a space has the empty base
    command: the gate lets it pass whatever follows, unless the empty name
    has been blocked; blocking a blank name blocks the empty name and with
    it every such line. *)
Theorem validateCommand_leading_space :
  (forall m command,
      validateCommand m (" "%char :: command)
      = negb (StringSet.has [] (blockedCommands m)))
  /\ (forall command, validateCommand commandManager (" "%char :: command) = true)
  /\ (forall m command,
         validateCommand (snd (blockCommand m " ")) (" "%char :: command)
         = false).
Proof.
  split; [reflexivity|]. split; [reflexivity|].
  intros m command. unfold validateCommand. cbn [getBaseCommand].
  change (getBaseCommand (" "%char :: command)) with (@nil ascii).
  unfold blockCommand. change (trim (toLowerCase " ")) with (@nil ascii).
  destruct (StringSet.has [] (blockedCommands m)) eqn:E; simpl.
  - rewrite E; reflexivity.
  - rewrite has_add, str_eqb_refl, orb_true_r. reflexivity.
Qed.

(** X3.  A name with a space inside can be blocked, but no command line is
    ever refused for it: the base command of a line has no space. *)
Theorem blockCommand_with_space_is_void (m : CommandManager) (name command : str)
    (Hspace : existsb (Ascii.eqb " "%char) (trim (toLowerCase name)) = true) :
  validateCommand (snd (blockCommand m name)) command
  = validateCommand m command
  /\ fst (blockCommand m name)
     = negb (StringSet.has (trim (toLowerCase name)) (blockedCommands m)).
Proof.
  split.
  - unfold validateCommand. f_equal.
    assert (Hset : blockedCommands (snd (blockCommand m name))
                   = StringSet.add (trim (toLowerCase name)) (blockedCommands m)).
    { unfold blockCommand, StringSet.add.
      destruct (StringSet.has _ _); reflexivity. }
    rewrite Hset, has_add.
    assert (str_eqb (getBaseCommand command) (trim (toLowerCase name)) = false)
      as ->; [|apply orb_false_r].
    apply str_eqb_neq. intros E.
    pose proof (getBaseCommand_no_blank command) as Hb. rewrite E in Hb.
    apply existsb_exists in Hspace as (c & Hc & Ec).
    apply Ascii.eqb_eq in Ec; subst c.
    rewrite forallb_forall in Hb. apply Hb in Hc. discriminate Hc.
  - unfold blockCommand. destruct (StringSet.has _ _); reflexivity.
Qed.

Lemma blockCommand_with_space_is_void_witness :
  validateCommand (snd (blockCommand commandManager "rm -rf")) "rm -rf /"
  = validateCommand commandManager "rm -rf /"
  /\ fst (blockCommand commandManager "rm -rf") = true.
Proof.
  apply (blockCommand_with_space_is_void commandManager "rm -rf" "rm -rf /").
  reflexivity.
Defined.

(** ** The block list stays in normal form *)

Lemma In_delete (x y : str) (s : StringSet.t) :
  In x (StringSet.delete y s) -> In x s.
Proof. unfold StringSet.delete. intros H; apply filter_In in H as [H _]; exact H. Qed.

Lemma In_add (x y : str) (s : StringSet.t) :
  In x (StringSet.add y s) -> In x s \/ x = y.
Proof.
  unfold StringSet.add. destruct (StringSet.has y s); [auto|].
  intros H. apply in_app_or in H as [H|[H|[]]]; auto.
Qed.

Lemma reachable_normal (m : CommandManager) :
  reachable m ->
  forall x, In x (blockedCommands m) -> trim (toLowerCase x) = x.
Proof.
  assert (Hdefault : forall x,
             In x (StringSet.of_list DEFAULT_BLOCKED_COMMANDS) ->
             trim (toLowerCase x) = x).
  { assert (forallb (fun x => str_eqb (trim (toLowerCase x)) x)
              (StringSet.of_list DEFAULT_BLOCKED_COMMANDS) = true) as H
        by reflexivity.
    rewrite forallb_forall in H. intros x Hx. apply str_eqb_eq, H, Hx. }
  induction 1 as [|m _ _|m name _ IH|m name _ IH]; intros x Hx.
  - apply Hdefault, Hx.
  - apply Hdefault, Hx.
  - unfold blockCommand in Hx.
    destruct (StringSet.has _ _); simpl in Hx; [apply IH, Hx|].
    apply In_add in Hx as [Hx| ->]; [apply IH, Hx | apply normal_idem].
  - unfold unblockCommand in Hx.
    destruct (StringSet.has _ _); simpl in Hx; [|apply IH, Hx].
    apply IH. eapply In_delete, Hx.
Qed.

(** X4.  Whatever has been loaded, blocked and unblocked before, every
    name that [listBlockedCommands] shows is in normal form (lower case,
    trimmed), so handing it back as it is shown works: [unblockCommand]
    removes it and answers [true], [blockCommand] answers [false]. *)
Theorem listed_name_round_trip (m : CommandManager) (name : str)
    (Hreach : reachable m)
    (Hlisted : In name (listBlockedCommands m)) :
  trim (toLowerCase name) = name
  /\ fst (unblockCommand m name) = true
  /\ StringSet.has name (blockedCommands (snd (unblockCommand m name))) = false
  /\ blockCommand m name = (false, m).
Proof.
  assert (Hin : In name (blockedCommands m)).
  { apply (Permutation_in name (sort_perm (blockedCommands m))), Hlisted. }
  pose proof (reachable_normal m Hreach name Hin) as Hn.
  pose proof (proj2 (has_In name (blockedCommands m)) Hin) as Hhas.
  split; [exact Hn|].
  unfold unblockCommand, blockCommand. rewrite Hn, Hhas. simpl.
  repeat split. rewrite has_delete, str_eqb_refl, andb_false_r. reflexivity.
Qed.

Lemma listed_name_round_trip_witness :
  trim (toLowerCase "wget") = "wget"
  /\ fst (unblockCommand (snd (blockCommand commandManager "  WGET ")) "wget")
     = true
  /\ StringSet.has "wget"
       (blockedCommands
          (snd (unblockCommand (snd (blockCommand commandManager "  WGET "))
                               "wget"))) = false
  /\ blockCommand (snd (blockCommand commandManager "  WGET ")) "wget"
     = (false, snd (blockCommand commandManager "  WGET ")).
Proof.
  apply (listed_name_round_trip (snd (blockCommand commandManager "  WGET "))
           "wget").
  - apply reachable_block, reachable_initial.
  - apply has_In. reflexivity.
Defined.

(** ** What [extractCommands] returns *)

Lemma add_NoDup (x : str) (s : StringSet.t) :
  NoDup s -> NoDup (StringSet.add x s).
Proof.
  intros H. unfold StringSet.add. destruct (StringSet.has x s) eqn:E; [exact H|].
  apply NoDup_app; [exact H | repeat constructor; auto |].
  intros y Hy [<-|[]]. apply has_In in Hy. congruence.
Qed.

Lemma of_list_sound (l : list str) :
  NoDup (StringSet.of_list l)
  /\ forall x, In x (StringSet.of_list l) -> In x l.
Proof.
  unfold StringSet.of_list.
  assert (G : forall acc,
             NoDup acc ->
             NoDup (fold_left (fun s x => StringSet.add x s) l acc)
             /\ forall x,
                 In x (fold_left (fun s x => StringSet.add x s) l acc) ->
                 In x acc \/ In x l).
  { induction l as [|y l IH]; intros acc Hacc; simpl; [auto|].
    destruct (IH (StringSet.add y acc) (add_NoDup y acc Hacc)) as [H1 H2].
    split; [exact H1|]. intros x Hx. apply H2 in Hx as [Hx|Hx]; [|auto].
    apply In_add in Hx as [Hx| ->]; auto. }
  destruct (G [] (NoDup_nil _)) as [H1 H2]. split; [exact H1|].
  intros x Hx. apply H2 in Hx as [[]|Hx]. exact Hx.
Qed.

Lemma extractBaseCommand_lower (s r : str) :
  extractBaseCommand s = Some r -> toLowerCase r = r.
Proof.
  unfold extractBaseCommand. destruct (trim (removeEnvVars s 0)); [discriminate|].
  destruct (firstToken _) as [|c t].
  - intros H; injection H as <-; reflexivity.
  - destruct (_ || _); [discriminate|].
    intros H; injection H as <-. apply (toLowerCase_idem (c :: t)).
Qed.

Lemma pushBaseCommand_lower (st : ScanState) :
  Forall (fun c => toLowerCase c = c) (commands st) ->
  Forall (fun c => toLowerCase c = c) (commands (pushBaseCommand st)).
Proof.
  intros H. unfold pushBaseCommand. destruct (trim (currentCmd st)); [exact H|].
  destruct (extractBaseCommand _) as [[|c r]|] eqn:E; try exact H.
  simpl. apply Forall_app; split; [exact H|].
  constructor; [|constructor]. apply (extractBaseCommand_lower _ _ E).
Qed.

Lemma scanStep_lower (self : str -> option (list str)) (c : ascii) (tl : str)
    (st st' : ScanState) (k : nat) :
  (forall content r, self content = Some r ->
                     Forall (fun c => toLowerCase c = c) r) ->
  Forall (fun c => toLowerCase c = c) (commands st) ->
  scanStep self c tl st = Some (st', k) ->
  Forall (fun c => toLowerCase c = c) (commands st').
Proof.
  intros Hself H. unfold scanStep.
  assert (Hsep :
    match find (fun separator => startsWith separator (c :: tl)) separators with
    | Some separator =>
        let st1 := pushBaseCommand st in
        Some (mkScan (inQuote st1) (quoteChar st1) [] (escaped st1)
                     (commands st1), length separator - 1)
    | None => Some (appendChar c st, 0)
    end = Some (st', k) ->
    Forall (fun c => toLowerCase c = c) (commands st')).
  { destruct (find _ _); intros E; injection E as <- <-; simpl;
      [apply pushBaseCommand_lower, H | exact H]. }
  repeat match goal with
         | |- (if ?b then _ else _) = _ -> _ => destruct b
         end;
    try (intros E; injection E as <- <-; exact H);
    try exact Hsep.
  destruct (self _) as [sub|] eqn:Es; [|discriminate].
  intros E; injection E as <- <-. simpl.
  apply Forall_app; split; [exact H | exact (Hself _ _ Es)].
Qed.

Lemma scan_lower (self : str -> option (list str)) (s : str) (k : nat)
    (st st' : ScanState) :
  (forall content r, self content = Some r ->
                     Forall (fun c => toLowerCase c = c) r) ->
  Forall (fun c => toLowerCase c = c) (commands st) ->
  scan self s k st = Some st' ->
  Forall (fun c => toLowerCase c = c) (commands st').
Proof.
  intros Hself. revert k st; induction s as [|c s IH]; intros k st H; simpl.
  - intros E; injection E as <-; exact H.
  - destruct k as [|k]; [|apply IH, H].
    destruct (scanStep self c s st) as [[st1 k1]|] eqn:E; [|discriminate].
    apply IH. exact (scanStep_lower self c s st st1 k1 Hself H E).
Qed.

Lemma getBaseCommand_lower (s : str) :
  toLowerCase (getBaseCommand s) = getBaseCommand s.
Proof.
  unfold getBaseCommand. rewrite <- trim_toLowerCase, toLowerCase_idem.
  reflexivity.
Qed.

Lemma extractCommands_lower (n : nat) (s : str) (r : list str) :
  extractCommands n s = Some r -> Forall (fun c => toLowerCase c = c) r.
Proof.
  revert s r; induction n as [|n IH]; intros s r; [discriminate|].
  cbn [extractCommands].
  destruct (scan (extractCommands n) (trim s) 0 initialScan) as [st|] eqn:E;
    intros H; injection H as <-.
  - pose proof (scan_lower (extractCommands n) (trim s) 0 initialScan st IH
                  (Forall_nil _) E) as Hst.
    apply pushBaseCommand_lower in Hst. rewrite Forall_forall in *.
    intros x Hx. apply Hst. apply (proj2 (of_list_sound _)), Hx.
  - constructor; [apply getBaseCommand_lower | constructor].
Qed.

(** X5.  For every command line and every depth of the call stack
    [extractCommands] returns a list without duplicates, all of whose
    names are in lower case. *)
Theorem extractCommands_distinct_lower_case (n : nat) (commandString : str) :
  exists r,
    extractCommands (S n) commandString = Some r
    /\ NoDup r
    /\ Forall (fun c => toLowerCase c = c) r.
Proof.
  destruct (extractCommands_total n commandString) as [r Hr].
  exists r. split; [exact Hr|]. split; [|exact (extractCommands_lower _ _ _ Hr)].
  cbn [extractCommands] in Hr.
  destruct (scan _ _ _ _); injection Hr as <-.
  - apply of_list_sound.
  - repeat constructor; auto.
Qed.

(** ** The gate and the extraction on a simple command line *)

Lemma trim_token (token rest : str) (c : ascii) :
  forallb (fun c => negb (isSpace c)) (c :: token) = true ->
  trim ((c :: token) ++ rest) = (c :: token) ++ trimEnd rest.
Proof.
  intros H. unfold trim.
  assert (trimStart ((c :: token) ++ rest) = (c :: token) ++ rest) as ->.
  { simpl in H; apply andb_true_iff in H as [Hc _].
    apply negb_true_iff in Hc. simpl; rewrite Hc; reflexivity. }
  apply trimEnd_token, H.
Qed.

Lemma spaceEnd_tokenEnd (rest : str) : spaceEnd rest = true -> tokenEnd rest = true.
Proof.
  destruct rest as [|c rest]; [reflexivity|]. simpl.
  intros H; apply Ascii.eqb_eq in H; subst c; reflexivity.
Qed.

Lemma splitHead_spaceEnd (token rest : str) :
  forallb (fun c => negb (isSpace c)) token = true ->
  spaceEnd rest = true ->
  splitHead " "%char (token ++ rest) = token.
Proof.
  intros Ht Hr. destruct rest as [|c rest].
  - rewrite app_nil_r. induction token as [|x token IH]; [reflexivity|].
    simpl in *. apply andb_true_iff in Ht as [Hx Ht].
    destruct (Ascii.eqb x " "%char) eqn:E.
    + apply Ascii.eqb_eq in E; subst x; discriminate.
    + rewrite (IH Ht); reflexivity.
  - simpl in Hr. apply Ascii.eqb_eq in Hr; subst c.
    apply splitHead_app, nonspace_not_blank, Ht.
Qed.

(** X6.  On a command line that is one simple command (a first token
    without white space, [=] or special characters, followed by nothing
    or by a space and plain arguments) the gate and the extraction see the
    same name: the extraction returns exactly the base command that the
    gate looks up. *)
Theorem gate_and_extraction_agree (n : nat) (m : CommandManager)
    (c : ascii) (token rest : str)
    (Hplain : forallb isPlain ((c :: token) ++ rest) = true)
    (Htoken : forallb (fun c => negb (isSpace c)) (c :: token) = true)
    (Hequal : forallb (fun c => negb (Ascii.eqb c "="%char)) (c :: token) = true)
    (Hdollar : Ascii.eqb c "$"%char = false)
    (Hrest : spaceEnd rest = true) :
  getBaseCommand ((c :: token) ++ rest) = toLowerCase (c :: token)
  /\ extractCommands (S n) ((c :: token) ++ rest)
     = Some [getBaseCommand ((c :: token) ++ rest)]
  /\ validateCommand m ((c :: token) ++ rest)
     = negb (StringSet.has (toLowerCase (c :: token)) (blockedCommands m)).
Proof.
  assert (Hbase : getBaseCommand ((c :: token) ++ rest) = toLowerCase (c :: token)).
  { unfold getBaseCommand. rewrite (splitHead_spaceEnd _ _ Htoken Hrest).
    rewrite trim_toLowerCase. f_equal.
    unfold trim. simpl trimStart.
    pose proof Htoken as Ht. simpl in Ht. apply andb_true_iff in Ht as [Hc _].
    apply negb_true_iff in Hc. rewrite Hc.
    apply trimEnd_nonspace, Htoken. }
  split; [exact Hbase|]. split.
  - rewrite Hbase. cbn [extractCommands].
    rewrite (trim_token token rest c Htoken).
    assert (Hp : forallb isPlain ((c :: token) ++ trimEnd rest) = true).
    { rewrite forallb_app in *. apply andb_true_iff in Hplain as [H1 H2].
      rewrite H1. apply forallb_trimEnd, H2. }
    unfold initialScan. rewrite (scan_end _ _ [] [] [] Hp).
    rewrite commands_pushBaseCommand.
    change ([] ++ (c :: token) ++ trimEnd rest)
      with ((c :: token) ++ trimEnd rest).
    unfold segmentCommands, pushBaseCommand. cbn [currentCmd commands].
    rewrite !(trim_token token (trimEnd rest) c Htoken), trimEnd_idem.
    rewrite (extractBaseCommand_token c token (trimEnd rest) Htoken Hequal)
      by (apply tokenEnd_trimEnd, spaceEnd_tokenEnd, Hrest).
    assert (Ascii.eqb c "("%char = false) as ->.
    { simpl in Hplain. apply andb_true_iff in Hplain as [Hc _].
      plain_cases Hc. assumption. }
    rewrite Hdollar. reflexivity.
  - unfold validateCommand. rewrite Hbase. reflexivity.
Qed.

Lemma gate_and_extraction_agree_witness :
  getBaseCommand "Sudo rm -rf /" = "sudo"
  /\ extractCommands 1 "Sudo rm -rf /" = Some [getBaseCommand "Sudo rm -rf /"]
  /\ validateCommand commandManager "Sudo rm -rf /"
     = negb (StringSet.has "sudo" (blockedCommands commandManager)).
Proof.
  apply (gate_and_extraction_agree 0 commandManager "S"%char "udo" " rm -rf /");
    reflexivity.
Defined.

(** ** Escapes, open quotes and open parentheses *)

(** X7.  A backslash outside or inside quotes takes the next character
    with it into the current segment, whatever that character is: an
    escaped separator, quote or parenthesis neither splits nor opens
    anything, and a command line with an escaped character between plain
    text is one segment. *)
Theorem extractCommands_escape :
  (forall self c rest iq q cur cmds,
      scan self ("\"%char :: c :: rest) 0 (mkScan iq q cur false cmds)
      = scan self rest 0 (mkScan iq q (cur ++ ["\"%char; c]) false cmds))
  /\ (forall n s a c b,
         trim s = a ++ "\"%char :: c :: b ->
         forallb isPlain a = true -> forallb isPlain b = true ->
         extractCommands (S n) s
         = Some (StringSet.of_list (segmentCommands (trim s)))).
Proof.
  assert (Hstep : forall self c rest iq q cur cmds,
      scan self ("\"%char :: c :: rest) 0 (mkScan iq q cur false cmds)
      = scan self rest 0 (mkScan iq q (cur ++ ["\"%char; c]) false cmds)).
  { intros self c rest iq q cur cmds. cbn [scan]. unfold scanStep at 1.
    cbn [escaped inQuote quoteChar currentCmd commands andb negb Ascii.eqb
         Bool.eqb].
    unfold scanStep at 1.
    cbn [escaped inQuote quoteChar currentCmd commands negb].
    rewrite andb_false_r. rewrite <- app_assoc. reflexivity. }
  split; [exact Hstep|].
  intros n s a c b Hs Ha Hb. cbn [extractCommands]. rewrite Hs.
  unfold initialScan. rewrite (scan_plain _ a _ [] [] [] Ha). cbn [app].
  rewrite Hstep, (scan_end _ b [] _ [] Hb).
  rewrite commands_pushBaseCommand. cbn [app].
  repeat (rewrite <- app_assoc; cbn [app]). reflexivity.
Qed.

Lemma extractCommands_escape_witness :
  extractCommands 1 "echo a \; rm -rf /"
  = Some (StringSet.of_list (segmentCommands (trim "echo a \; rm -rf /"))).
Proof.
  destruct extractCommands_escape as [_ H].
  apply (H 0 "echo a \; rm -rf /" "echo a " ";"%char " rm -rf /"); reflexivity.
Defined.

(** X8.  A quote that is never closed swallows the rest of the line: what
    follows it, separators and commands included, stays in the segment of
    the quote, so the line is one segment. *)
Theorem extractCommands_open_quote (n : nat) (s a body : str) (qc : ascii)
    (Hs : trim s = a ++ qc :: body)
    (Ha : forallb isPlain a = true)
    (Hq : isQuote qc = true)
    (Hbody : isQuoted qc body = true) :
  extractCommands (S n) s
  = Some (StringSet.of_list (segmentCommands (trim s))).
Proof.
  cbn [extractCommands]. rewrite Hs. unfold initialScan.
  rewrite (scan_plain _ a _ [] [] [] Ha). cbn [app scan].
  assert (Hbs : Ascii.eqb qc "\"%char = false).
  { unfold isQuote in Hq. apply orb_true_iff in Hq as [E|E];
      apply Ascii.eqb_eq in E; subst qc; reflexivity. }
  assert (scanStep (extractCommands n) qc body (mkScan false [] a false [])
          = Some (mkScan true [qc] (a ++ [qc]) false [], 0)) as ->.
  { unfold scanStep. cbn [escaped inQuote quoteChar currentCmd commands].
    rewrite Hbs. unfold isQuote in Hq. rewrite Hq. reflexivity. }
  rewrite <- (app_nil_r body) at 1.
  rewrite (scan_inside_quotes _ qc body [] _ [] Hbody).
  cbn [scan]. rewrite commands_pushBaseCommand. cbn [app].
  rewrite <- app_assoc. reflexivity.
Qed.

Lemma extractCommands_open_quote_witness :
  extractCommands 1 "echo 'a; sudo rm -rf /"
  = Some (StringSet.of_list (segmentCommands (trim "echo 'a; sudo rm -rf /"))).
Proof.
  apply (extractCommands_open_quote 0 _ "echo " "a; sudo rm -rf /" "'"%char);
    reflexivity.
Defined.

Lemma parenScan_open (d : nat) (s : str) :
  noParenthesis s = true -> parenScan (S d) s = length s.
Proof.
  induction s as [|c s IH]; [reflexivity|]. unfold noParenthesis. simpl.
  intros H. apply andb_true_iff in H as [Hc H].
  apply andb_true_iff in Hc as [H1 H2]. apply negb_true_iff in H1, H2.
  rewrite H1, H2. f_equal. exact (IH H).
Qed.

(** X9.  An opening parenthesis that is never closed: the scan for the
    closing one runs to the end of the line, the last character of the
    line is taken for the closing parenthesis and dropped, the text
    between goes to the recursive call, and nothing of the line is
    scanned after that. *)
Theorem extractCommands_open_parenthesis
    (self : str -> option (list str)) (body : str) (z : ascii)
    (q cur : str) (cmds : list str)
    (Hopen : noParenthesis (body ++ [z]) = true) :
  scan self ("(" ++ body ++ [z]) 0 (mkScan false q cur false cmds)
  = match self body with
    | Some subCommands => Some (mkScan false q cur false (cmds ++ subCommands))
    | None => None
    end.
Proof.
  scan_outside.
  cbn [andb orb negb Ascii.eqb Bool.eqb commands currentCmd].
  rewrite (parenScan_open 0 _ Hopen), Nat.leb_refl.
  rewrite length_app. cbn [length]. rewrite Nat.add_comm. cbn [Nat.add].
  cbn [subshellContent]. rewrite firstn_app, firstn_all, Nat.sub_diag.
  cbn [firstn]. rewrite app_nil_r.
  destruct (self body) as [sub|]; [|reflexivity].
  rewrite scan_skip. rewrite skipn_all2; [reflexivity|].
  rewrite length_app. simpl. lia.
Qed.

Lemma extractCommands_open_parenthesis_witness :
  scan (extractCommands 1) ("(" ++ "sudo r" ++ ["m"%char]) 0
       (mkScan false [] [] false [])
  = Some (mkScan false [] [] false ([] ++ ["sudo"])).
Proof.
  apply (extractCommands_open_parenthesis (extractCommands 1) "sudo r" "m"%char
           [] [] []).
  reflexivity.
Defined.

(* ================================================================= *)
(** * Further properties of the allow list *)

Lemma splitSecond_flag (v : str) :
  splitSecond "="%char ("--allowed-dir=" ++ v) = splitHead "="%char v.
Proof. reflexivity. Qed.

Lemma startsWith_app (p s : str) : startsWith p (p ++ s) = true.
Proof.
  induction p as [|c p IH]; [reflexivity|]. simpl.
  rewrite Ascii.eqb_refl. exact IH.
Qed.

Lemma parseArgs_cons (arg : str) (rest : list str) :
  parseArgs (arg :: rest)
  = if str_eqb arg "--allowed-dir" || str_eqb arg "-d" then
      match rest with
      | dirPath :: rest' => dirPath :: parseArgs rest'
      | [] => []
      end
    else if startsWith "--allowed-dir=" arg then
      match splitSecond "="%char arg with
      | [] => parseArgs rest
      | (_ :: _) as dirPath => dirPath :: parseArgs rest
      end
    else parseArgs rest.
Proof. reflexivity. Qed.

Lemma hasAllowedDir_cons (arg : str) (rest : list str) :
  hasAllowedDir (arg :: rest)
  = (str_eqb arg "--allowed-dir" || str_eqb arg "-d"
     || startsWith "--allowed-dir=" arg)
    || hasAllowedDir rest.
Proof. reflexivity. Qed.

Lemma parseArgs_skip (arg : str) (rest : list str) :
  isOtherArgument arg = true -> parseArgs (arg :: rest) = parseArgs rest.
Proof.
  intros Ha. rewrite parseArgs_cons.
  unfold isOtherArgument in Ha. apply negb_true_iff in Ha.
  apply orb_false_iff in Ha as [Ha1 Ha2]. rewrite Ha1, Ha2. reflexivity.
Qed.

Lemma parseArgs_app_other (pre args : list str) :
  forallb isOtherArgument pre = true ->
  parseArgs (pre ++ args) = parseArgs args.
Proof.
  induction pre as [|arg pre IH]; [reflexivity|].
  cbn [forallb app]. intros H. apply andb_true_iff in H as [Ha H].
  rewrite (parseArgs_skip arg (pre ++ args) Ha). exact (IH H).
Qed.

Lemma parseArgs_equals (value : str) (rest : list str) :
  parseArgs (("--allowed-dir=" ++ value) :: rest)
  = match splitHead "="%char value with
    | [] => parseArgs rest
    | dirPath => dirPath :: parseArgs rest
    end.
Proof.
  rewrite parseArgs_cons.
  assert (str_eqb ("--allowed-dir=" ++ value) "--allowed-dir"
          || str_eqb ("--allowed-dir=" ++ value) "-d" = false) as ->
    by reflexivity.
  rewrite startsWith_app, splitSecond_flag.
  destruct (splitHead "="%char value); reflexivity.
Qed.

Lemma parseArgs_pairs (flag : str) (dirs rest : list str) :
  str_eqb flag "--allowed-dir" || str_eqb flag "-d" = true ->
  parseArgs (flat_map (fun dirPath => [flag; dirPath]) dirs ++ rest)
  = dirs ++ parseArgs rest.
Proof.
  intros Hf. induction dirs as [|dirPath dirs IH]; [reflexivity|].
  cbn [flat_map app]. rewrite parseArgs_cons, Hf. f_equal. exact IH.
Qed.

(** X10.  What a command line can say.  Written as pairs [-d dir] (or
    [--allowed-dir dir]), any list of directories is read back as it is, in
    its order, whatever the directories look like: empty, or like a flag.
    Written as [--allowed-dir=dir], each directory is cut at its first [=]
    and dropped when nothing is left, so a directory with [=] in its name
    or an empty one cannot be given in this form.  Arguments before the
    flags that are no flags change nothing. *)
Theorem parseArgs_round_trip :
  (forall dirs rest : list str,
      parseArgs (flat_map (fun dirPath : str => ["-d"; dirPath]) dirs ++ rest)
      = dirs ++ parseArgs rest)
  /\ (forall dirs rest : list str,
         parseArgs
           (flat_map (fun dirPath : str => ["--allowed-dir"; dirPath]) dirs
            ++ rest)
         = dirs ++ parseArgs rest)
  /\ (forall dirs rest : list str,
         parseArgs (map (app "--allowed-dir=") dirs ++ rest)
         = filter (fun dirPath => negb (str_eqb dirPath []))
             (map (splitHead "="%char) dirs)
           ++ parseArgs rest)
  /\ (forall (node script : str) (others dirs : list str),
         forallb isOtherArgument others = true ->
         dirs <> [] ->
         parseCommandLineArgs
           (node :: script
            :: others
               ++ flat_map (fun dirPath : str => ["-d"; dirPath]) dirs)
         = Some dirs).
Proof.
  split; [intros; apply parseArgs_pairs; reflexivity|].
  split; [intros; apply parseArgs_pairs; reflexivity|].
  split.
  - intros dirs rest. induction dirs as [|dirPath dirs IH]; [reflexivity|].
    cbn [map]. rewrite <- app_comm_cons, parseArgs_equals, IH.
    destruct (splitHead "="%char dirPath); reflexivity.
  - intros node script others dirs Ho Hd.
    unfold parseCommandLineArgs. cbn [skipn].
    rewrite (parseArgs_app_other others _ Ho).
    pose proof (parseArgs_pairs "-d" dirs [] eq_refl) as P.
    rewrite app_nil_r in P. cbn [parseArgs] in P. rewrite app_nil_r in P.
    unfold str in *. rewrite P.
    destruct dirs; [contradiction Hd; reflexivity|reflexivity].
Qed.

Lemma parseArgs_round_trip_witness :
  parseCommandLineArgs
    ["node"; "index.js"; "--verbose"; "-d"; "-d"; "-d"; []; "-d"; "/srv/a=b"]
  = Some ["-d"; []; "/srv/a=b"].
Proof.
  destruct parseArgs_round_trip as (_ & _ & _ & H).
  apply (H "node" "index.js" ["--verbose"] ["-d"; []; "/srv/a=b"]).
  - reflexivity.
  - discriminate.
Defined.

Lemma parseArgs_hasAllowedDir (args : list str) :
  parseArgs args <> [] -> hasAllowedDir args = true.
Proof.
  induction args as [|arg args IH]; [intros H; contradiction H; reflexivity|].
  rewrite parseArgs_cons, hasAllowedDir_cons.
  destruct (str_eqb arg "--allowed-dir" || str_eqb arg "-d") eqn:E1;
    [reflexivity|].
  destruct (startsWith "--allowed-dir=" arg) eqn:E2; [reflexivity|].
  exact IH.
Qed.

(** X11.  The start-up check of [index.ts] and [parseCommandLineArgs] do
    not ask the same question.  Whenever directories are found the check
    is passed; but the check is also passed by a flag without a directory
    ([-d] in the last place, [--allowed-dir=] with nothing after it), and
    then no directory is found and [loadAllowedDirectories] keeps what the
    configuration file or the compiled-in list says. *)
Theorem hasAllowedDir_and_parseCommandLineArgs :
  (forall argv directories,
      parseCommandLineArgs argv = Some directories ->
      hasAllowedDir argv = true /\ directories <> [])
  /\ (forall node script others cwd current,
         forallb isOtherArgument others = true ->
         let argv := node :: script :: others ++ ["-d"] in
         let argv' := node :: script :: others ++ ["--allowed-dir="] in
         hasAllowedDir argv = true
         /\ parseCommandLineArgs argv = None
         /\ loadAllowedDirectories argv cwd ConfigUnreadable current = current
         /\ hasAllowedDir argv' = true
         /\ parseCommandLineArgs argv' = None
         /\ loadAllowedDirectories argv' cwd ConfigUnreadable current
            = current).
Proof.
  split.
  - intros argv directories H. unfold parseCommandLineArgs in H.
    destruct (parseArgs (skipn 2 argv)) as [|d ds] eqn:E; [discriminate|].
    injection H as <-. split; [|discriminate].
    assert (Hs : hasAllowedDir (skipn 2 argv) = true).
    { apply parseArgs_hasAllowedDir. rewrite E. discriminate. }
    unfold hasAllowedDir in *. apply existsb_exists in Hs as (x & Hx & Hp).
    apply existsb_exists. exists x. split; [|exact Hp].
    rewrite <- (firstn_skipn 2 argv). apply in_or_app; right; exact Hx.
  - intros node script others cwd current Ho argv argv'.
    assert (P : parseCommandLineArgs argv = None).
    { unfold parseCommandLineArgs, argv. cbn [skipn].
      rewrite (parseArgs_app_other others ["-d"] Ho). reflexivity. }
    assert (P' : parseCommandLineArgs argv' = None).
    { unfold parseCommandLineArgs, argv'. cbn [skipn].
      rewrite (parseArgs_app_other others ["--allowed-dir="] Ho). reflexivity. }
    unfold loadAllowedDirectories. rewrite P, P'.
    repeat split; unfold hasAllowedDir, argv, argv'; cbn [existsb];
      rewrite existsb_app; cbn [existsb];
      rewrite ?orb_true_r; reflexivity.
Qed.

Lemma hasAllowedDir_and_parseCommandLineArgs_witness :
  hasAllowedDir ["node"; "index.js"; "--verbose"; "-d"] = true
  /\ parseCommandLineArgs ["node"; "index.js"; "--verbose"; "-d"] = None
  /\ hasAllowedDir ["node"; "index.js"; "-d"; "/srv"] = true.
Proof.
  destruct hasAllowedDir_and_parseCommandLineArgs as [H1 H2].
  destruct (H2 "node" "index.js" ["--verbose"] "/work" [] eq_refl)
    as (A & B & _).
  split; [exact A|]. split; [exact B|].
  apply (H1 _ ["/srv"]). reflexivity.
Defined.

Lemma withCwd_In (cwd : str) (directories : list str) :
  In cwd (withCwd cwd directories).
Proof.
  unfold withCwd. destruct (existsb (str_eqb cwd) directories) eqn:E.
  - apply existsb_exists in E as (x & Hx & Ex).
    apply str_eqb_eq in Ex; subst x; exact Hx.
  - apply in_or_app; right; left; reflexivity.
Qed.

Lemma withCwd_idem (cwd : str) (directories : list str) :
  withCwd cwd (withCwd cwd directories) = withCwd cwd directories.
Proof.
  unfold withCwd at 1.
  assert (existsb (str_eqb cwd) (withCwd cwd directories) = true) as ->;
    [|reflexivity].
  apply existsb_exists. exists cwd. split; [apply withCwd_In | apply str_eqb_refl].
Qed.

Lemma withCwd_elements (cwd x : str) (directories : list str) :
  In x (withCwd cwd directories) <-> In x directories \/ x = cwd.
Proof.
  unfold withCwd. destruct (existsb (str_eqb cwd) directories) eqn:E.
  - split; [auto|]. intros [H| ->]; [exact H|].
    apply existsb_exists in E as (y & Hy & Ey).
    apply str_eqb_eq in Ey; subst y; exact Hy.
  - rewrite in_app_iff. simpl. intuition.
Qed.

(** X12.  [loadAllowedDirectories] keeps the working directory allowed: it
    is in the list afterwards whenever it was before (as it is in the
    initial list), and always when the list comes from the command line or
    the configuration file.  The command line wins over the file, and the
    new list replaces the old one: it holds the directories given and the
    working directory, nothing of the old list.  Loading again with the
    same sources changes nothing. *)
Theorem loadAllowedDirectories_keeps_cwd :
  (forall argv cwd config current,
      In cwd current ->
      In cwd (loadAllowedDirectories argv cwd config current))
  /\ (forall argv cwd config, 
         In cwd (loadAllowedDirectories argv cwd config
                   (defaultAllowedDirectories cwd)))
  /\ (forall argv cwd config current cmdDirs,
         parseCommandLineArgs argv = Some cmdDirs ->
         forall x,
           In x (loadAllowedDirectories argv cwd config current)
           <-> In x cmdDirs \/ x = cwd)
  /\ (forall argv cwd current directories,
         parseCommandLineArgs argv = None ->
         forall x,
           In x (loadAllowedDirectories argv cwd
                   (ConfigDirectories directories) current)
           <-> In x directories \/ x = cwd)
  /\ (forall argv cwd config current,
         loadAllowedDirectories argv cwd config
           (loadAllowedDirectories argv cwd config current)
         = loadAllowedDirectories argv cwd config current).
Proof.
  assert (Hkeep : forall argv cwd config current,
             In cwd current ->
             In cwd (loadAllowedDirectories argv cwd config current)).
  { intros argv cwd config current H. unfold loadAllowedDirectories.
    destruct (parseCommandLineArgs argv); [apply withCwd_In|].
    destruct config; try exact H. apply withCwd_In. }
  split; [exact Hkeep|].
  split.
  { intros argv cwd config. apply Hkeep. simpl. auto 10. }
  split.
  { intros argv cwd config current cmdDirs H x.
    unfold loadAllowedDirectories. rewrite H. apply withCwd_elements. }
  split.
  { intros argv cwd current directories H x.
    unfold loadAllowedDirectories. rewrite H. apply withCwd_elements. }
  intros argv cwd config current. unfold loadAllowedDirectories.
  destruct (parseCommandLineArgs argv); [reflexivity|].
  destruct config; reflexivity.
Qed.

Lemma loadAllowedDirectories_keeps_cwd_witness :
  In "/work"
     (loadAllowedDirectories ["node"; "index.js"; "-d"; "/srv"] "/work"
        ConfigUnreadable (defaultAllowedDirectories "/work"))
  /\ (In "/Users/wenleliao/doc"
         (loadAllowedDirectories ["node"; "index.js"; "-d"; "/srv"] "/work"
            ConfigUnreadable (defaultAllowedDirectories "/work"))
      <-> In "/Users/wenleliao/doc" ["/srv"] \/ "/Users/wenleliao/doc" = "/work").
Proof.
  destruct loadAllowedDirectories_keeps_cwd as (H1 & _ & H3 & _).
  split.
  - apply H1. simpl. auto 10.
  - apply (H3 _ "/work" ConfigUnreadable _ ["/srv"]). reflexivity.
Defined.

(* ================================================================= *)
(** * Further properties of the path sandbox *)

(** ** Segments *)

Lemma segments_nonempty (s : str) : path.segments s <> [].
Proof.
  induction s as [|c s IH]; simpl; [discriminate|].
  destruct (path.isSlash c); [discriminate|].
  destruct (path.segments s); discriminate.
Qed.

Lemma segments_slashfree (s : str) :
  Forall (fun seg => forallb (fun c => negb (path.isSlash c)) seg = true)
         (path.segments s).
Proof.
  induction s as [|c s IH]; simpl; [repeat constructor|].
  destruct (path.isSlash c) eqn:E; [constructor; [reflexivity | exact IH]|].
  destruct (path.segments s) as [|seg segs].
  - repeat constructor. simpl. rewrite E; reflexivity.
  - inversion IH; subst. constructor; [|assumption].
    simpl. rewrite E. assumption.
Qed.

Lemma segments_app (a b : str) :
  path.segments (a ++ "/" ++ b) = path.segments a ++ path.segments b.
Proof.
  induction a as [|c a IH]; [reflexivity|].
  cbn [app path.segments]. destruct (path.isSlash c).
  - cbn [app] in IH. rewrite IH. reflexivity.
  - cbn [app] in IH. rewrite IH.
    destruct (path.segments a) as [|seg segs] eqn:E; [|reflexivity].
    exfalso; exact (segments_nonempty a E).
Qed.

Lemma segments_one (a : str) :
  forallb (fun c => negb (path.isSlash c)) a = true -> path.segments a = [a].
Proof.
  induction a as [|c a IH]; [reflexivity|]. simpl.
  intros H. apply andb_true_iff in H as [Hc H].
  apply negb_true_iff in Hc. rewrite Hc, (IH H). reflexivity.
Qed.

Lemma isSegment_slashfree (seg : str) :
  isSegment seg = true -> forallb (fun c => negb (path.isSlash c)) seg = true.
Proof. unfold isSegment. intros H; apply andb_true_iff in H as [_ H]; exact H. Qed.

Lemma isProper_isSegment (seg : str) : isProper seg = true -> isSegment seg = true.
Proof.
  unfold isProper. intros H. apply andb_true_iff in H as [H _].
  apply andb_true_iff in H as [H _]. exact H.
Qed.

Lemma joinSegments_cons (seg : str) (segs : list str) :
  segs <> [] ->
  path.joinSegments (seg :: segs) = seg ++ "/" ++ path.joinSegments segs.
Proof. destruct segs; [intros H; contradiction H|]; reflexivity. Qed.

Lemma segments_join (segs : list str) :
  Forall (fun seg => isSegment seg = true) segs -> segs <> [] ->
  path.segments (path.joinSegments segs) = segs.
Proof.
  induction 1 as [|seg segs Hseg Hsegs IH]; intros Hne; [contradiction Hne; reflexivity|].
  destruct segs as [|seg' segs'].
  - apply segments_one, isSegment_slashfree, Hseg.
  - rewrite joinSegments_cons by discriminate.
    rewrite segments_app, (segments_one seg (isSegment_slashfree seg Hseg)).
    rewrite IH by discriminate. reflexivity.
Qed.

Lemma joinSegments_app (l1 l2 : list str) :
  l1 <> [] -> l2 <> [] ->
  path.joinSegments (l1 ++ l2)
  = path.joinSegments l1 ++ "/" ++ path.joinSegments l2.
Proof.
  induction l1 as [|seg l1 IH]; intros H1 H2; [contradiction H1; reflexivity|].
  destruct l1 as [|seg' l1'].
  - cbn [app]. apply joinSegments_cons, H2.
  - cbn [app]. rewrite (joinSegments_cons seg (seg' :: l1' ++ l2)) by discriminate.
    cbn [app] in IH. rewrite IH by (discriminate || exact H2).
    rewrite (joinSegments_cons seg (seg' :: l1')) by discriminate.
    repeat rewrite <- app_assoc. reflexivity.
Qed.

Lemma joinSegments_head (segs : list str) :
  Forall (fun seg => isSegment seg = true) segs ->
  path.isAbsolute (path.joinSegments segs) = false
  /\ (segs <> [] -> path.joinSegments segs <> []).
Proof.
  destruct 1 as [|seg segs Hseg Hsegs]; [split; [reflexivity | intros H; contradiction H; reflexivity]|].
  assert (exists c t, seg = c :: t /\ path.isSlash c = false) as (c & t & -> & Hc).
  { unfold isSegment in Hseg. destruct seg as [|c t]; [discriminate|].
    simpl in Hseg. apply andb_true_iff in Hseg as [Hc _].
    apply negb_true_iff in Hc. eauto. }
  destruct segs; simpl; rewrite ?Hc; split; (reflexivity || discriminate).
Qed.

(** ** Normalization *)

Lemma normalizeSegments_segment (b : bool) (segs stack : list str) :
  Forall (fun seg => forallb (fun c => negb (path.isSlash c)) seg = true) segs ->
  Forall (fun seg => isSegment seg = true) stack ->
  Forall (fun seg => isSegment seg = true)
         (path.normalizeSegments b segs stack).
Proof.
  intros Hsegs; revert stack; induction Hsegs as [|seg segs Hseg _ IH];
    intros stack Hstack; simpl.
  - apply Forall_rev, Hstack.
  - destruct (str_eqb seg [] || str_eqb seg ".") eqn:E1; [apply IH, Hstack|].
    destruct (str_eqb seg "..") eqn:E2.
    + apply str_eqb_eq in E2; subst seg.
      destruct stack as [|top below].
      * apply IH. destruct b; repeat constructor.
      * inversion Hstack; subst.
        destruct (str_eqb top ".."); [|apply IH; assumption].
        apply IH. destruct b; [constructor; [reflexivity|]|]; assumption.
    + apply IH. constructor; [|exact Hstack].
      unfold isSegment. apply orb_false_iff in E1 as [E1 _].
      rewrite E1, Hseg. reflexivity.
Qed.

Lemma normalizeSegments_proper (segs stack : list str) :
  Forall (fun seg => forallb (fun c => negb (path.isSlash c)) seg = true) segs ->
  Forall (fun seg => isProper seg = true) stack ->
  Forall (fun seg => isProper seg = true)
         (path.normalizeSegments false segs stack).
Proof.
  intros Hsegs; revert stack; induction Hsegs as [|seg segs Hseg _ IH];
    intros stack Hstack; simpl.
  - apply Forall_rev, Hstack.
  - destruct (str_eqb seg [] || str_eqb seg ".") eqn:E1; [apply IH, Hstack|].
    destruct (str_eqb seg "..") eqn:E2.
    + destruct stack as [|top below]; [apply IH; constructor|].
      inversion Hstack; subst.
      destruct (str_eqb top ".."); apply IH; assumption.
    + apply IH. constructor; [|exact Hstack].
      unfold isProper, isSegment. apply orb_false_iff in E1 as [E1 E1'].
      rewrite E1, E1', E2, Hseg. reflexivity.
Qed.

(** Without [..] the segments are kept or dropped one by one. *)
Lemma normalizeSegments_filter (b : bool) (segs stack : list str) :
  forallb (fun seg => negb (str_eqb seg "..")) segs = true ->
  path.normalizeSegments b segs stack = rev stack ++ filter keepSegment segs.
Proof.
  revert stack; induction segs as [|seg segs IH]; intros stack H; simpl.
  - rewrite app_nil_r; reflexivity.
  - simpl in H. apply andb_true_iff in H as [Hseg H].
    apply negb_true_iff in Hseg. unfold keepSegment at 1.
    destruct (str_eqb seg [] || str_eqb seg "."); simpl; [apply IH, H|].
    rewrite Hseg, (IH _ H). simpl. rewrite <- app_assoc. reflexivity.
Qed.

Lemma isProper_keep (segs : list str) :
  Forall (fun seg => isProper seg = true) segs ->
  filter keepSegment segs = segs
  /\ forallb (fun seg => negb (str_eqb seg "..")) segs = true.
Proof.
  induction 1 as [|seg segs Hseg _ [IH1 IH2]]; [split; reflexivity|].
  simpl. unfold isProper, isSegment in Hseg.
  apply andb_true_iff in Hseg as [Hseg H3].
  apply andb_true_iff in Hseg as [Hseg H2].
  apply andb_true_iff in Hseg as [H1 _].
  unfold keepSegment at 1. apply negb_true_iff in H1, H2.
  rewrite H1, H2, H3, IH1, IH2. split; reflexivity.
Qed.

Lemma endsWithSlash_app (a b : str) :
  b <> [] -> path.endsWithSlash (a ++ b) = path.endsWithSlash b.
Proof.
  intros Hb. unfold path.endsWithSlash. rewrite rev_app_distr.
  destruct (rev b) as [|c r] eqn:E; [|reflexivity].
  apply (f_equal (@rev ascii)) in E. rewrite rev_involutive in E.
  contradiction.
Qed.

Lemma endsWithSlash_segment (seg : str) :
  isSegment seg = true -> path.endsWithSlash seg = false.
Proof.
  intros H. apply isSegment_slashfree in H. unfold path.endsWithSlash.
  destruct (rev seg) as [|c r] eqn:E; [reflexivity|].
  rewrite forallb_forall in H.
  assert (In c seg) as Hin by (apply in_rev; rewrite E; left; reflexivity).
  apply H in Hin. apply negb_true_iff in Hin. exact Hin.
Qed.

Lemma endsWithSlash_join (segs : list str) :
  Forall (fun seg => isSegment seg = true) segs ->
  path.endsWithSlash (path.joinSegments segs) = false.
Proof.
  induction 1 as [|seg segs Hseg Hsegs IH]; [reflexivity|].
  destruct segs as [|seg' segs'].
  - apply endsWithSlash_segment, Hseg.
  - rewrite joinSegments_cons by discriminate.
    rewrite app_assoc, endsWithSlash_app; [exact IH|].
    apply (proj2 (joinSegments_head _ Hsegs)). discriminate.
Qed.

(** A path of the form that [path.resolve] returns is left as it is by
    [path.normalize]. *)
Lemma normalize_joined (segs : list str) :
  Forall (fun seg => isProper seg = true) segs ->
  path.normalize ("/" ++ path.joinSegments segs)
  = "/" ++ path.joinSegments segs.
Proof.
  intros H.
  assert (Hs : Forall (fun seg => isSegment seg = true) segs).
  { eapply Forall_impl; [|exact H]. intros seg. apply isProper_isSegment. }
  destruct segs as [|seg segs]; [reflexivity|].
  set (js := path.joinSegments (seg :: segs)).
  assert (Hjs : js <> []) by (apply (proj2 (joinSegments_head _ Hs)); discriminate).
  unfold path.normalize. cbn [app path.isAbsolute path.isSlash Ascii.eqb Bool.eqb negb].
  assert (path.endsWithSlash ("/"%char :: js) = false) as ->.
  { change ("/"%char :: js) with ("/" ++ js).
    rewrite endsWithSlash_app by exact Hjs. apply endsWithSlash_join, Hs. }
  unfold path.normalizeString.
  change ("/"%char :: js) with ([] ++ "/" ++ js).
  rewrite segments_app. unfold js at 1.
  rewrite segments_join by (exact Hs || discriminate).
  cbn [path.segments app].
  destruct (isProper_keep _ H) as [K1 K2].
  rewrite normalizeSegments_filter by exact K2.
  change (filter keepSegment ([] :: seg :: segs))
    with (filter keepSegment (seg :: segs)).
  rewrite K1. cbn [rev app]. fold js.
  destruct js; [contradiction Hjs; reflexivity | reflexivity].
Qed.

(** ** What [path.resolve] returns *)

Lemma resolveLoop_absolute (argsRev : list str) (cwd acc : str) :
  path.isAbsolute cwd = true ->
  snd (path.resolveLoop argsRev cwd acc) = true.
Proof.
  intros H. revert acc; induction argsRev as [|p rest IH]; intros acc; simpl.
  - destruct cwd; [discriminate | exact H].
  - destruct p as [|c p]; [apply IH|].
    destruct (path.isAbsolute (c :: p)); [reflexivity | apply IH].
Qed.

Lemma resolve_joined (cwd : str) (args : list str) :
  path.isAbsolute cwd = true ->
  exists segs,
    Forall (fun seg => isProper seg = true) segs
    /\ path.resolve cwd args = "/" ++ path.joinSegments segs.
Proof.
  intros H. unfold path.resolve.
  pose proof (resolveLoop_absolute (rev args) cwd [] H) as Hl.
  destruct (path.resolveLoop (rev args) cwd []) as [rp ra]. simpl in Hl.
  subst ra. cbn [negb]. unfold path.normalizeString.
  exists (path.normalizeSegments false (path.segments rp) []).
  split; [|reflexivity].
  apply normalizeSegments_proper; [apply segments_slashfree | constructor].
Qed.

Lemma absolutePath_joined (env : Env) (requestedPath : str) :
  path.isAbsolute (cwd env) = true ->
  exists segs,
    Forall (fun seg => isProper seg = true) segs
    /\ absolutePath env requestedPath = "/" ++ path.joinSegments segs.
Proof.
  intros H. unfold absolutePath.
  destruct (path.isAbsolute (expandHome env requestedPath));
    apply resolve_joined, H.
Qed.

(** X13.  In a process with an absolute working directory the path that
    [validatePath] checks, and returns for a path that does not exist, is
    absolute and in normal form, so the containment check compares its
    lower-case form as it is; and no caller takes it for an error. *)
Theorem absolutePath_normal (env : Env) (requestedPath : str)
    (Hcwd : path.isAbsolute (cwd env) = true) :
  path.isAbsolute (absolutePath env requestedPath) = true
  /\ path.normalize (absolutePath env requestedPath)
     = absolutePath env requestedPath
  /\ normalizePath (absolutePath env requestedPath)
     = toLowerCase (absolutePath env requestedPath)
  /\ isError (absolutePath env requestedPath) = false.
Proof.
  destruct (absolutePath_joined env requestedPath Hcwd) as (segs & Hsegs & ->).
  pose proof (normalize_joined segs Hsegs) as Hn.
  unfold normalizePath. rewrite Hn. repeat split; reflexivity.
Qed.

Lemma absolutePath_normal_witness :
  path.isAbsolute (absolutePath sandboxEnv "a/../b//c/") = true
  /\ path.normalize (absolutePath sandboxEnv "a/../b//c/")
     = absolutePath sandboxEnv "a/../b//c/"
  /\ normalizePath (absolutePath sandboxEnv "a/../b//c/")
     = toLowerCase (absolutePath sandboxEnv "a/../b//c/")
  /\ isError (absolutePath sandboxEnv "a/../b//c/") = false.
Proof. apply (absolutePath_normal sandboxEnv "a/../b//c/"). reflexivity. Defined.

(** ** Which paths a directory of the allow list admits *)

Lemma isAllowed_dirAdmits (env : Env) (absolute : str) :
  isAllowed env absolute
  = existsb (fun dir => dirAdmits dir absolute) (allowedDirectories env).
Proof. reflexivity. Qed.

Lemma isSlash_lowerChar (c : ascii) :
  path.isSlash (lowerChar c) = path.isSlash c.
Proof. each_char c. Qed.

Lemma slashEnd_startsWith (a suffix : str) :
  slashEnd suffix = true ->
  str_eqb (a ++ suffix) a || startsWith (a ++ path.sep) (a ++ suffix) = true.
Proof.
  intros H. destruct suffix as [|c suffix].
  - rewrite app_nil_r, str_eqb_refl. reflexivity.
  - simpl in H. apply Ascii.eqb_eq in H; subst c.
    replace (a ++ "/"%char :: suffix) with ((a ++ path.sep) ++ suffix)
      by (rewrite <- app_assoc; reflexivity).
    rewrite startsWith_app. apply orb_true_r.
Qed.

(** X14.  No false denial.  A directory of the allow list that is written
    in normal form admits itself and every path below it, and it does so
    whatever the letter case of the request: a path is admitted when its
    lower-case form is that of the directory, or that followed by a slash
    and more. *)
Theorem isAllowed_below (env : Env) (requestedPath dir suffix : str)
    (Hcwd : path.isAbsolute (cwd env) = true)
    (Hdir : In dir (allowedDirectories env))
    (Hnormal : path.normalize dir = dir)
    (Hbelow : toLowerCase (absolutePath env requestedPath)
              = toLowerCase dir ++ suffix)
    (Hsuffix : slashEnd suffix = true) :
  isAllowed env (absolutePath env requestedPath) = true.
Proof.
  rewrite isAllowed_dirAdmits. apply existsb_exists. exists dir.
  split; [exact Hdir|]. unfold dirAdmits. cbv zeta.
  destruct (absolutePath_normal env requestedPath Hcwd) as (_ & _ & -> & _).
  unfold normalizePath at 1 2. rewrite Hnormal, Hbelow.
  apply slashEnd_startsWith, Hsuffix.
Qed.

Lemma isAllowed_below_witness :
  isAllowed sandboxEnv (absolutePath sandboxEnv "/SandBox/Data/../x.txt") = true.
Proof.
  apply (isAllowed_below sandboxEnv "/SandBox/Data/../x.txt" "/sandbox" "/x.txt");
    try reflexivity.
  left; reflexivity.
Defined.

Lemma hasDoubleSlash_startsWith (x s : str) :
  startsWith (x ++ "//") s = true -> hasDoubleSlash s = true.
Proof.
  revert s; induction x as [|c x IH]; intros s.
  - destruct s as [|a [|b s]]; cbn [app startsWith]; intros H.
    + discriminate H.
    + rewrite andb_false_r in H. discriminate H.
    + apply andb_true_iff in H as [Ha H].
      apply andb_true_iff in H as [Hb _].
      apply Ascii.eqb_eq in Ha, Hb. subst a b. reflexivity.
  - destruct s as [|a s]; cbn [app startsWith]; intros H; [discriminate H|].
    apply andb_true_iff in H as [_ H].
    cbn [hasDoubleSlash]. rewrite (IH _ H). apply orb_true_r.
Qed.

Lemma hasDoubleSlash_toLowerCase (s : str) :
  hasDoubleSlash (toLowerCase s) = hasDoubleSlash s.
Proof.
  induction s as [|c s IH]; [reflexivity|]. simpl.
  rewrite isSlash_lowerChar, IH. f_equal. f_equal.
  destruct s; [reflexivity|]. simpl. apply isSlash_lowerChar.
Qed.

Lemma hasDoubleSlash_segment (seg rest : str) :
  forallb (fun c => negb (path.isSlash c)) seg = true ->
  hasDoubleSlash (seg ++ rest) = hasDoubleSlash rest.
Proof.
  induction seg as [|c seg IH]; [reflexivity|]. simpl.
  intros H. apply andb_true_iff in H as [Hc H].
  apply negb_true_iff in Hc. rewrite Hc. simpl. exact (IH H).
Qed.

Lemma hasDoubleSlash_join (segs : list str) :
  Forall (fun seg => isSegment seg = true) segs ->
  hasDoubleSlash ("/" ++ path.joinSegments segs) = false.
Proof.
  intros H. cbn [app hasDoubleSlash path.isSlash Ascii.eqb Bool.eqb andb].
  rewrite (proj1 (joinSegments_head _ H)). cbn [orb].
  induction H as [|seg segs Hseg Hsegs IH]; [reflexivity|].
  destruct segs as [|seg' segs'].
  - cbn [path.joinSegments]. rewrite <- (app_nil_r seg).
    apply (hasDoubleSlash_segment seg [] (isSegment_slashfree _ Hseg)).
  - rewrite joinSegments_cons by discriminate.
    rewrite (hasDoubleSlash_segment seg _ (isSegment_slashfree _ Hseg)).
    cbn [app hasDoubleSlash path.isSlash Ascii.eqb Bool.eqb andb].
    rewrite (proj1 (joinSegments_head _ Hsegs)). exact IH.
Qed.

Lemma endsWithSlash_toLowerCase (s : str) :
  path.endsWithSlash (toLowerCase s) = path.endsWithSlash s.
Proof.
  unfold path.endsWithSlash, toLowerCase. rewrite <- map_rev.
  destruct (rev s); [reflexivity|]. simpl. apply isSlash_lowerChar.
Qed.

Lemma normalize_trailing (dir : str) :
  path.endsWithSlash dir = true ->
  exists x, path.normalize dir = x ++ "/".
Proof.
  intros H. unfold path.normalize. destruct dir as [|c dir]; [discriminate|].
  rewrite H.
  destruct (path.normalizeString (c :: dir) (negb (path.isAbsolute (c :: dir))))
    as [|a q].
  - destruct (path.isAbsolute (c :: dir)); [exists [] | exists "."]; reflexivity.
  - destruct (path.isAbsolute (c :: dir)).
    + exists ("/" ++ a :: q). rewrite <- app_assoc. reflexivity.
    + exists (a :: q). reflexivity.
Qed.

(** X15.  A directory of the allow list that is written with a slash at the
    end admits nothing below it: the only path it can admit is the root
    directory itself (and that only when it is the root). *)
Theorem dirAdmits_trailing_slash (env : Env) (requestedPath dir : str)
    (Hcwd : path.isAbsolute (cwd env) = true)
    (Hslash : path.endsWithSlash dir = true)
    (Hadmits : dirAdmits dir (absolutePath env requestedPath) = true) :
  absolutePath env requestedPath = "/".
Proof.
  destruct (absolutePath_normal env requestedPath Hcwd) as (_ & _ & Hn & _).
  destruct (absolutePath_joined env requestedPath Hcwd) as (segs & Hsegs & Habs).
  assert (Hs : Forall (fun seg => isSegment seg = true) segs).
  { eapply Forall_impl; [|exact Hsegs]. intros seg. apply isProper_isSegment. }
  unfold dirAdmits in Hadmits. cbv zeta in Hadmits. rewrite Hn in Hadmits.
  destruct (normalize_trailing dir Hslash) as [x Hx].
  unfold normalizePath in Hadmits. rewrite Hx in Hadmits.
  apply orb_true_iff in Hadmits as [E|E].
  - apply str_eqb_eq in E.
    assert (Hend : path.endsWithSlash (absolutePath env requestedPath) = true).
    { rewrite <- endsWithSlash_toLowerCase, E, endsWithSlash_toLowerCase.
      apply endsWithSlash_app. discriminate. }
    rewrite Habs in *. destruct segs as [|seg segs]; [reflexivity|].
    rewrite endsWithSlash_app in Hend.
    + rewrite (endsWithSlash_join _ Hs) in Hend. discriminate.
    + apply (proj2 (joinSegments_head _ Hs)). discriminate.
  - unfold toLowerCase in E at 1. rewrite map_app, <- app_assoc in E.
    change (map lowerChar "/" ++ path.sep) with "//" in E.
    apply hasDoubleSlash_startsWith in E.
    rewrite hasDoubleSlash_toLowerCase, Habs, (hasDoubleSlash_join _ Hs) in E.
    discriminate.
Qed.

Lemma dirAdmits_trailing_slash_witness :
  absolutePath sandboxEnv "/a/.." = "/".
Proof.
  apply (dirAdmits_trailing_slash sandboxEnv "/a/.." "/"); reflexivity.
Defined.

Lemma normalize_relative (dir : str) :
  path.isAbsolute dir = false ->
  exists c q, path.normalize dir = c :: q /\ path.isSlash c = false.
Proof.
  intros H. unfold path.normalize. destruct dir as [|d dir].
  - exists "."%char, []. split; reflexivity.
  - rewrite H. cbn [negb]. unfold path.normalizeString.
    set (segs := path.normalizeSegments true (path.segments (d :: dir)) []).
    assert (Hs : Forall (fun seg => isSegment seg = true) segs).
    { apply normalizeSegments_segment; [apply segments_slashfree | constructor]. }
    pose proof (proj1 (joinSegments_head _ Hs)) as Hh.
    destruct (path.joinSegments segs) as [|a q].
    + destruct (path.endsWithSlash (d :: dir));
        [exists "."%char, "/" | exists "."%char, []]; split; reflexivity.
    + simpl in Hh. destruct (path.endsWithSlash (d :: dir));
        [exists a, (q ++ "/") | exists a, q]; split; (reflexivity || exact Hh).
Qed.

(** X16.  A directory of the allow list that is written as a relative path
    admits nothing: it is compared as it is written, not resolved against
    the working directory. *)
Theorem dirAdmits_relative (env : Env) (requestedPath dir : str)
    (Hcwd : path.isAbsolute (cwd env) = true)
    (Hrelative : path.isAbsolute dir = false) :
  dirAdmits dir (absolutePath env requestedPath) = false.
Proof.
  destruct (absolutePath_normal env requestedPath Hcwd) as (_ & _ & Hn & _).
  destruct (absolutePath_joined env requestedPath Hcwd) as (segs & _ & Habs).
  unfold dirAdmits. cbv zeta. rewrite Hn, Habs.
  destruct (normalize_relative dir Hrelative) as (c & q & Hd & Hc).
  unfold normalizePath. rewrite Hd.
  assert (Hl : Ascii.eqb (lowerChar c) "/"%char = false).
  { pose proof (isSlash_lowerChar c) as Hl. rewrite Hc in Hl. exact Hl. }
  cbn [toLowerCase map app str_eqb startsWith].
  change (lowerChar "/") with "/"%char.
  rewrite Hl, (Ascii.eqb_sym "/"%char), Hl. reflexivity.
Qed.

Lemma dirAdmits_relative_witness :
  dirAdmits "./work" (absolutePath sandboxEnv "work/x") = false
  /\ absolutePath sandboxEnv "work/x" = "/work/work/x".
Proof.
  split; [|reflexivity].
  apply (dirAdmits_relative sandboxEnv "work/x" "./work"); reflexivity.
Defined.

(** ** Relative requests *)

Lemma isResolved_joined (w : str) :
  isResolved w = true -> w <> "/" ->
  exists cs,
    Forall (fun seg => isProper seg = true) cs /\ cs <> []
    /\ w = "/" ++ path.joinSegments cs.
Proof.
  unfold isResolved. intros H Hroot. apply andb_true_iff in H as [Ha Hr].
  apply str_eqb_eq in Hr.
  destruct (resolve_joined w [w] Ha) as (cs & Hcs & E). rewrite Hr in E.
  exists cs. split; [exact Hcs|]. split; [|exact E].
  intros ->. apply Hroot. exact E.
Qed.

(** A relative request without [..] is resolved to the working directory
    followed by the segments of the request that are not empty nor [.]. *)
Lemma absolutePath_relative (env : Env) (p : str) :
  isResolved (cwd env) = true -> cwd env <> "/" ->
  p <> [] -> path.isAbsolute p = false ->
  startsWith "~/" p || str_eqb p "~" = false ->
  noDotDot p = true ->
  absolutePath env p
  = cwd env
    ++ match filter keepSegment (path.segments p) with
       | [] => []
       | kept => "/" ++ path.joinSegments kept
       end.
Proof.
  intros Hres Hroot Hp Hrel Hhome Hdd.
  destruct (isResolved_joined _ Hres Hroot) as (cs & Hcs & Hne & Hw).
  unfold absolutePath, expandHome. rewrite Hhome, Hrel.
  unfold path.resolve. cbn [rev app path.resolveLoop].
  destruct p as [|c p]; [contradiction Hp; reflexivity|]. rewrite Hrel.
  remember (cwd env) as w eqn:Ew. clear Ew. subst w.
  cbn [app path.resolveLoop path.isAbsolute path.isSlash Ascii.eqb Bool.eqb negb].
  assert (Hs : Forall (fun seg => isSegment seg = true) cs).
  { eapply Forall_impl; [|exact Hcs]. intros seg. apply isProper_isSegment. }
  assert (Hsplit :
    path.segments ("/"%char :: path.joinSegments cs ++ "/"%char :: c :: p ++ "/")
    = ([] :: cs) ++ path.segments (c :: p) ++ [[]]).
  { transitivity
      (path.segments (([] ++ "/" ++ path.joinSegments cs) ++ "/"
                      ++ ((c :: p) ++ "/" ++ [])));
      [reflexivity|].
    rewrite !segments_app, (segments_join cs Hs Hne). reflexivity. }
  unfold path.normalizeString. rewrite Hsplit.
  destruct (isProper_keep _ Hcs) as [K1 K2].
  rewrite normalizeSegments_filter.
  2:{ rewrite !forallb_app. unfold noDotDot in Hdd. rewrite Hdd.
      change (forallb (fun seg => negb (str_eqb seg "..")) ([] :: cs))
        with (forallb (fun seg => negb (str_eqb seg "..")) cs).
      rewrite K2. reflexivity. }
  rewrite !filter_app.
  change (filter keepSegment ([] :: cs)) with (filter keepSegment cs).
  rewrite K1.
  change (filter keepSegment [[]]) with (@nil str).
  cbn [rev]. rewrite app_nil_r. cbn [app].
  destruct (filter keepSegment (path.segments (c :: p))) as [|k ks].
  - rewrite !app_nil_r. reflexivity.
  - rewrite joinSegments_app by (exact Hne || discriminate).
    reflexivity.
Qed.

Lemma slashEnd_toLowerCase (s : str) : slashEnd (toLowerCase s) = slashEnd s.
Proof. destruct s; [reflexivity|]. simpl. apply isSlash_lowerChar. Qed.

(** X17.  With the working directory allowed (as [loadAllowedDirectories]
    keeps it), in resolved form and not the root, every relative request
    without a [..] segment passes the containment check: it is resolved to
    a path in or below the working directory. *)
Theorem isAllowed_relative (env : Env) (p : str)
    (Hres : isResolved (cwd env) = true)
    (Hroot : cwd env <> "/")
    (Hin : In (cwd env) (allowedDirectories env))
    (Hp : p <> [])
    (Hrel : path.isAbsolute p = false)
    (Hhome : startsWith "~/" p || str_eqb p "~" = false)
    (Hdd : noDotDot p = true) :
  isAllowed env (absolutePath env p) = true
  /\ absolutePath env p
     = cwd env
       ++ match filter keepSegment (path.segments p) with
          | [] => []
          | kept => "/" ++ path.joinSegments kept
          end.
Proof.
  pose proof (absolutePath_relative env p Hres Hroot Hp Hrel Hhome Hdd) as E.
  split; [|exact E].
  destruct (isResolved_joined _ Hres Hroot) as (cs & Hcs & _ & Hw).
  assert (Ha : path.isAbsolute (cwd env) = true) by (rewrite Hw; reflexivity).
  apply (isAllowed_below env p (cwd env)
           (toLowerCase
              match filter keepSegment (path.segments p) with
              | [] => []
              | kept => "/" ++ path.joinSegments kept
              end)); try assumption.
  - rewrite Hw. apply normalize_joined, Hcs.
  - rewrite E at 1. unfold toLowerCase. apply map_app.
  - rewrite slashEnd_toLowerCase.
    destruct (filter keepSegment (path.segments p)); reflexivity.
Qed.

Lemma isAllowed_relative_witness :
  isAllowed sandboxEnv (absolutePath sandboxEnv "src/./lib//a.ts") = true
  /\ absolutePath sandboxEnv "src/./lib//a.ts"
     = "/work" ++ "/" ++ path.joinSegments ["src"; "lib"; "a.ts"].
Proof.
  apply (isAllowed_relative sandboxEnv "src/./lib//a.ts"); try reflexivity;
    try discriminate.
  right; left; reflexivity.
Defined.

(** X18.  [readMultipleFiles] validates a path twice.  When the first
    validation denies the path, the second one is given the access-denied
    message; it takes the message for a relative path, resolves it below
    the working directory and lets it pass the containment check, so the
    denial is not what the second validation answers. *)
Theorem validateTwice_loses_denial (env : Env) (filePath : str)
    (Hres : isResolved (cwd env) = true)
    (Hroot : cwd env <> "/")
    (Hin : In (cwd env) (allowedDirectories env))
    (Hdenied : isAllowed env (absolutePath env filePath) = false) :
  validatePath env filePath
  = Fulfilled 0 (accessDenied (absolutePath env filePath))
  /\ validateTwice env filePath
     = validatePath env (accessDenied (absolutePath env filePath))
  /\ isAllowed env
       (absolutePath env (accessDenied (absolutePath env filePath))) = true
  /\ startsWith (cwd env ++ "/__ERROR__: Access denied.")
       (absolutePath env (accessDenied (absolutePath env filePath))) = true
  /\ isError (absolutePath env (accessDenied (absolutePath env filePath)))
     = false.
Proof.
  assert (Hfirst : validatePath env filePath
                   = Fulfilled 0 (accessDenied (absolutePath env filePath))).
  { rewrite validatePath_eq. unfold validationOperation. rewrite Hdenied.
    reflexivity. }
  split; [exact Hfirst|]. split.
  { unfold validateTwice. rewrite Hfirst. cbn [await].
    destruct (validatePath env (accessDenied (absolutePath env filePath)));
      reflexivity. }
  destruct (isResolved_joined _ Hres Hroot) as (cs & Hcs & _ & Hw).
  assert (Ha : path.isAbsolute (cwd env) = true) by (rewrite Hw; reflexivity).
  destruct (absolutePath_joined env filePath Ha) as (segs & Hsegs & Habs).
  set (msg := "__ERROR__: Access denied. Path is not within allowed directories: ").
  assert (He : accessDenied (absolutePath env filePath)
               = msg ++ "/" ++ path.joinSegments segs).
  { rewrite Habs. reflexivity. }
  assert (Hseg : path.segments (accessDenied (absolutePath env filePath))
                 = msg :: path.segments (path.joinSegments segs)).
  { rewrite He, segments_app. reflexivity. }
  assert (Hdd : noDotDot (accessDenied (absolutePath env filePath)) = true).
  { unfold noDotDot. rewrite Hseg. cbn [forallb]. 
    change (negb (str_eqb msg "..")) with true. cbn [andb].
    destruct segs as [|seg segs]; [reflexivity|].
    assert (Hs : Forall (fun seg => isSegment seg = true) (seg :: segs)).
    { eapply Forall_impl; [|exact Hsegs]. intros x. apply isProper_isSegment. }
    rewrite segments_join by (exact Hs || discriminate).
    apply (proj2 (isProper_keep _ Hsegs)). }
  destruct (isAllowed_relative env (accessDenied (absolutePath env filePath))
              Hres Hroot Hin) as [Hallowed Hform];
    try (rewrite He; reflexivity || discriminate); [exact Hdd|].
  split; [exact Hallowed|]. split.
  - rewrite Hform, Hseg.
    change (filter keepSegment (msg :: path.segments (path.joinSegments segs)))
      with (msg :: filter keepSegment (path.segments (path.joinSegments segs))).
    destruct (filter keepSegment (path.segments (path.joinSegments segs)))
      as [|k ks].
    + cbn [path.joinSegments].
      change (cwd env ++ "/" ++ msg)
        with (cwd env ++ "/__ERROR__: Access denied." ++
              " Path is not within allowed directories: ").
      rewrite app_assoc. apply startsWith_app.
    + rewrite joinSegments_cons by discriminate.
      change (cwd env ++ "/" ++ msg ++ "/" ++ path.joinSegments (k :: ks))
        with (cwd env ++ "/__ERROR__: Access denied." ++
              " Path is not within allowed directories: " ++ "/" ++
              path.joinSegments (k :: ks)).
      rewrite app_assoc. apply startsWith_app.
  - apply (absolutePath_normal env _ Ha).
Qed.

Lemma validateTwice_loses_denial_witness :
  validatePath {| cwd := "/work"; homedir := "/home/u";
                  allowedDirectories := ["/work"];
                  stat := fun _ => Rejected 1;
                  realpath := fun _ => Rejected 1 |} "/etc/passwd"
  = Fulfilled 0
      "__ERROR__: Access denied. Path is not within allowed directories: /etc/passwd"
  /\ validateTwice {| cwd := "/work"; homedir := "/home/u";
                      allowedDirectories := ["/work"];
                      stat := fun _ => Rejected 1;
                      realpath := fun _ => Rejected 1 |} "/etc/passwd"
     = Fulfilled 4
         "/work/__ERROR__: Access denied. Path is not within allowed directories: /etc/passwd".
Proof.
  destruct (validateTwice_loses_denial
              {| cwd := "/work"; homedir := "/home/u";
                 allowedDirectories := ["/work"];
                 stat := fun _ => Rejected 1;
                 realpath := fun _ => Rejected 1 |} "/etc/passwd")
    as (H1 & H2 & _); try reflexivity.
  - discriminate.
  - left; reflexivity.
  - split; [exact H1|]. rewrite H2. reflexivity.
Defined.

(** ** The time of the walk and the second validation *)

Lemma validateParentDirectoriesFrom_bound (env : Env) (delta : N) (fuel : nat)
    (d : str) :
  (forall q, completesWithin delta (realpath env q) = true) ->
  length d <= fuel ->
  exists t found,
    validateParentDirectoriesFrom fuel env d = Fulfilled t found
    /\ (t <= delta * N.of_nat (length d))%N.
Proof.
  intros Hfs. revert d; induction fuel as [|fuel IH]; intros d H; simpl.
  - destruct (_ || _) eqn:E; [exists 0%N, false; split; [reflexivity | lia]|].
    apply dirname_shorter in E. lia.
  - destruct (_ || _) eqn:E; [exists 0%N, false; split; [reflexivity | lia]|].
    pose proof (dirname_shorter d E) as L. cbv zeta in L.
    pose proof (Hfs (path.dirname d)) as Hq.
    destruct (realpath env (path.dirname d)) as [t1 v|t1|] eqn:R; simpl in *.
    + apply N.leb_le in Hq. exists (t1 + 0)%N, true.
      split; [reflexivity|]. nia.
    + apply N.leb_le in Hq.
      destruct (IH (path.dirname d)) as (t & found & -> & Ht); [lia|].
      simpl. exists (t1 + t)%N, found. split; [reflexivity|]. nia.
    + discriminate.
Qed.

(** X19.  For a path that passes the containment check and does not exist,
    the walk up the parents asks [realpath] at most once for every
    character of the path: when each call answers within [delta]
    milliseconds and the time of [stat] plus [delta] times the length of
    the absolute path is within the budget, [validatePath] returns the
    absolute path and not a time-out. *)
Theorem validatePath_missing_in_time (env : Env) (requestedPath : str)
    (t0 delta : N)
    (Hallowed : isAllowed env (absolutePath env requestedPath) = true)
    (Hstat : stat env (absolutePath env requestedPath) = Rejected t0)
    (Hfs : forall q, completesWithin delta (realpath env q) = true)
    (Htime : (t0 + delta * N.of_nat (length (absolutePath env requestedPath))
              <= PATH_VALIDATION_TIMEOUT)%N) :
  exists t,
    validatePath env requestedPath
    = Fulfilled t (absolutePath env requestedPath)
    /\ (t <= t0 + delta * N.of_nat (length (absolutePath env requestedPath)))%N.
Proof.
  destruct (validateParentDirectoriesFrom_bound env delta
              (length (absolutePath env requestedPath))
              (absolutePath env requestedPath) Hfs (le_n _))
    as (t1 & found & Hwalk & Ht1).
  exists (t0 + t1)%N. split; [|lia].
  rewrite validatePath_eq. unfold validationOperation.
  rewrite Hallowed, Hstat. simpl.
  unfold validateParentDirectories. rewrite Hwalk. simpl.
  assert ((t0 + t1 <=? PATH_VALIDATION_TIMEOUT)%N = true) as Hle
      by (apply N.leb_le; lia).
  destruct found; simpl; rewrite N.add_0_r, Hle; reflexivity.
Qed.

Lemma validatePath_missing_in_time_witness :
  exists t,
    validatePath sandboxEnv "/sandbox/a/b/c"
    = Fulfilled t (absolutePath sandboxEnv "/sandbox/a/b/c")
    /\ (t <= 1 + 1 * N.of_nat (length (absolutePath sandboxEnv "/sandbox/a/b/c")))%N.
Proof.
  apply (validatePath_missing_in_time sandboxEnv "/sandbox/a/b/c" 1 1);
    try reflexivity.
  - intros q. simpl.
    destruct (str_eqb q "/sandbox/link"); [reflexivity|].
    destruct (str_eqb q "/sandbox"); reflexivity.
  - vm_compute. discriminate.
Defined.

(** X20.  Resolving a resolved path changes nothing: in a process with an
    absolute working directory the absolute path of a request is its own
    absolute path, so a second validation of a path that the first one
    returned unresolved checks the same path for containment. *)
Theorem absolutePath_idempotent (env : Env) (requestedPath : str)
    (Hcwd : path.isAbsolute (cwd env) = true) :
  absolutePath env (absolutePath env requestedPath)
  = absolutePath env requestedPath.
Proof.
  destruct (absolutePath_joined env requestedPath Hcwd) as (segs & Hsegs & ->).
  assert (Hs : Forall (fun seg => isSegment seg = true) segs).
  { eapply Forall_impl; [|exact Hsegs]. intros seg. apply isProper_isSegment. }
  unfold absolutePath, expandHome.
  cbn [app startsWith str_eqb Ascii.eqb Bool.eqb andb orb path.isAbsolute
       path.isSlash].
  unfold path.resolve.
  cbn [rev app path.resolveLoop path.isAbsolute path.isSlash Ascii.eqb
       Bool.eqb negb].
  unfold path.normalizeString.
  destruct segs as [|seg segs]; [reflexivity|].
  assert (Hsplit :
    path.segments ("/"%char :: path.joinSegments (seg :: segs) ++ "/")
    = ([] :: seg :: segs) ++ [[]]).
  { transitivity
      (path.segments (([] ++ "/" ++ path.joinSegments (seg :: segs))
                      ++ "/" ++ []));
      [reflexivity|].
    rewrite !segments_app, (segments_join _ Hs) by discriminate.
    reflexivity. }
  rewrite Hsplit.
  destruct (isProper_keep _ Hsegs) as [K1 K2].
  rewrite normalizeSegments_filter.
  2:{ rewrite forallb_app.
      change (forallb (fun s => negb (str_eqb s "..")) ([] :: seg :: segs))
        with (forallb (fun s => negb (str_eqb s "..")) (seg :: segs)).
      rewrite K2. reflexivity. }
  rewrite filter_app.
  change (filter keepSegment ([] :: seg :: segs))
    with (filter keepSegment (seg :: segs)).
  rewrite K1. change (filter keepSegment [[]]) with (@nil str).
  cbn [rev]. rewrite app_nil_r. reflexivity.
Qed.

Lemma absolutePath_idempotent_witness :
  absolutePath sandboxEnv (absolutePath sandboxEnv "~/../x/./y/")
  = absolutePath sandboxEnv "~/../x/./y/".
Proof. apply (absolutePath_idempotent sandboxEnv "~/../x/./y/"). reflexivity. Defined.
